(** * hexedit: a shallow embedding of [hexedit.cpp] and its specification

    [hexedit -pos X -w HEXDATA -r SOURCE -o OUTPUT] copies SOURCE to
    OUTPUT, overwriting the bytes from position X on with the bytes
    written in HEXDATA, and gives OUTPUT the time stamps of SOURCE.

    The development follows the source file top down: [secureZero],
    [parseHexString] with its local [hexVal], then [main].  Everything
    the operating system and the C library do for [main] ([strtol],
    [stat], the file streams, [utimes]) is modelled in the module
    [Posix]. *)

From Stdlib Require Import ZArith Lia Ascii String.
From stdpp Require Import base option list strings gmap.

Local Open Scope Z_scope.

(** ** Machine integers

    [long], [off_t] and [std::size_t] are 64 bits wide on the platforms
    the program is written for.  The values are kept in [Z] and every
    arithmetic operation of the source that could leave the range is
    wrapped explicitly. *)

Module Int64.

Definition min_signed : Z := - 2 ^ 63.
Definition max_signed : Z := 2 ^ 63 - 1.
Definition modulus : Z := 2 ^ 64.

Definition in_signed (z : Z) : Prop := min_signed <= z <= max_signed.
Definition in_unsigned (z : Z) : Prop := 0 <= z < modulus.

(** Two's complement reading of the low 64 bits. *)
Definition wrap_signed (z : Z) : Z :=
  (z + 2 ^ 63) mod modulus - 2 ^ 63.

Definition wrap_unsigned (z : Z) : Z := z mod modulus.

End Int64.

(** ** Characters and bytes

    A [char] of a [std::string] is an [ascii]; compared or subtracted it
    is promoted to [int].  [char] is signed on the platform of the
    source (it reads [st_atimespec], the BSD and macOS name of the
    field), so the characters above 127 are negative.  An
    [unsigned char], and a [char] of the file buffer seen as the byte it
    stores, is a [Z] in [0, 256). *)

Definition char_to_int (c : ascii) : Z :=
  let n := Z.of_nat (nat_of_ascii c) in
  if 128 <=? n then n - 256 else n.

(** [static_cast<unsigned char>(int)] *)
Definition to_uchar (z : Z) : Z := z mod 256.

(** ** Exceptions

    The only exception the program throws itself is
    [std::runtime_error].  It is built from a [std::string]; [what]
    gives the message back as a C string, which ends at the first NUL
    character. *)

Inductive exception : Type :=
| runtime_error (what_arg : string).

(** The characters of a string up to its first NUL. *)
Fixpoint c_str (s : string) : string :=
  match s with
  | EmptyString => EmptyString
  | String c rest =>
      if Ascii.eqb c "000" then EmptyString else String c (c_str rest)
  end.

Definition what (e : exception) : string :=
  match e with runtime_error what_arg => c_str what_arg end.

Inductive result (A : Type) : Type :=
| Return (a : A)
| Throw (e : exception).
Arguments Return {A} a.
Arguments Throw {A} e.

Global Instance result_ret : MRet result := fun A a => Return a.

Global Instance result_bind : MBind result := fun A B k r =>
  match r with
  | Return a => k a
  | Throw e => Throw e
  end.

(** ** [parseHexString] *)

(** The lambda [hexVal] of [parseHexString]. *)
Definition hexVal (c : ascii) : result Z :=
  let v := char_to_int c in
  if (char_to_int "0" <=? v) && (v <=? char_to_int "9") then
    Return (v - char_to_int "0")
  else if (char_to_int "A" <=? v) && (v <=? char_to_int "F") then
    Return (v - char_to_int "A" + 10)
  else if (char_to_int "a" <=? v) && (v <=? char_to_int "f") then
    Return (v - char_to_int "a" + 10)
  else
    Throw (runtime_error ("Invalid hex character: " +:+ String c EmptyString)).

(** [static_cast<unsigned char>((hi << 4) | lo)] *)
Definition byteVal (hi lo : Z) : Z :=
  to_uchar (Z.lor (Z.shiftl hi 4) lo).

(** The [for] loop of [parseHexString]: [s] is what is left of [hexStr]
    from index [i] on, [acc] is [result].  Each round reads [hexStr[i]]
    and [hexStr[i+1]] and pushes one byte.  When a single character is
    left, [hexStr[i+1]] is the terminating NUL of the [std::string]. *)
Fixpoint parseHexString_loop (s : string) (acc : list Z) : result (list Z) :=
  match s with
  | EmptyString => Return acc
  | String c0 EmptyString =>
      hi ← hexVal c0;
      lo ← hexVal "000";
      Return (acc ++ [byteVal hi lo])
  | String c0 (String c1 rest) =>
      hi ← hexVal c0;
      lo ← hexVal c1;
      parseHexString_loop rest (acc ++ [byteVal hi lo])
  end.

Definition parseHexString (hexStr : string) : result (list Z) :=
  if negb (Z.of_nat (String.length hexStr) mod 2 =? 0) then
    Throw (runtime_error "Hex string length is odd.")
  else
    parseHexString_loop hexStr [].

(** ** [secureZero]

    The memory [ptr] points into is a list of bytes and [ptr] is an
    index into it.  A store outside the object has no defined
    behaviour: [store] answers [None] there. *)

Definition store (mem : list Z) (p : Z) (v : Z) : option (list Z) :=
  if (0 <=? p) && (p <? Z.of_nat (length mem)) then
    Some (<[Z.to_nat p := v]> mem)
  else None.

(** [while (len--) *p++ = 0;] runs its body once for each value
    [len, len - 1, ..., 1] of the counter; the last test, at zero, wraps
    the counter of the callee around and leaves.  The recursion is on
    the number of rounds left. *)
Fixpoint secureZero_loop (rounds : nat) (mem : list Z) (p : Z) : option (list Z) :=
  match rounds with
  | O => Some mem
  | S rounds' =>
      mem' ← store mem p 0;
      secureZero_loop rounds' mem' (p + 1)
  end.

Definition secureZero (mem : list Z) (ptr : Z) (len : Z) : option (list Z) :=
  secureZero_loop (Z.to_nat (Int64.wrap_unsigned len)) mem ptr.

(** ** The C library and the operating system *)

Module Posix.

(** *** [strtol] in base 10, with no end pointer

    As the C standard has it: white space is skipped, one sign is
    read, then the longest run of decimal digits.  With no digit
    there is no conversion and the answer is 0; a value out of the
    range of [long] is clamped to the nearest end of the range. *)

Definition isspace (c : ascii) : bool :=
  let v := char_to_int c in
  (v =? 32) || ((9 <=? v) && (v <=? 13)).

Definition isdigit (c : ascii) : bool :=
  let v := char_to_int c in
  (char_to_int "0" <=? v) && (v <=? char_to_int "9").

Fixpoint skip_space (s : string) : string :=
  match s with
  | String c rest => if isspace c then skip_space rest else s
  | EmptyString => s
  end.

(** The digits at the head of [s], folded into [acc]; [None] when
    [s] does not start with a digit and nothing was read before. *)
Fixpoint read_digits (s : string) (acc : option Z) : option Z :=
  match s with
  | String c rest =>
      if isdigit c then
        read_digits rest (Some (10 * default 0 acc + (char_to_int c - char_to_int "0")))
      else acc
  | EmptyString => acc
  end.

Definition clamp_long (z : Z) : Z :=
  Z.max Int64.min_signed (Z.min Int64.max_signed z).

Definition strtol (nptr : string) : Z :=
  let s := skip_space nptr in
  let '(negative, s) :=
    match s with
    | String "-" rest => (true, rest)
    | String "+" rest => (false, rest)
    | _ => (false, s)
    end in
  match read_digits s None with
  | None => 0
  | Some magnitude => clamp_long (if negative : bool then - magnitude else magnitude)
  end.

(** *** Time stamps *)

Module Timespec.
Record t : Type := make { tv_sec : Z; tv_nsec : Z }.
End Timespec.

Module Timeval.
Record t : Type := make { tv_sec : Z; tv_usec : Z }.
End Timeval.

(** What the file system keeps of a [timeval] given to [utimes]. *)
Definition timespec_of_timeval (tv : Timeval.t) : Timespec.t :=
  Timespec.make (Timeval.tv_sec tv) (Timeval.tv_usec tv * 1000).

(** *** Files *)

Record file : Type := File {
  f_data : list Z;
  f_atime : Timespec.t;
  f_mtime : Timespec.t
}.

(** The fields of [struct stat] the program reads. *)
Record stat_t : Type := Stat {
  st_size : Z;
  st_atimespec : Timespec.t;
  st_mtimespec : Timespec.t
}.

Inductive syscall : Type :=
| SysStat | SysOpenRead | SysRead | SysOpenWrite | SysWrite | SysUtimes.

(** The world outside the process: the regular files by path, the
    clock the file system stamps files with, and the calls that fail
    for a reason the files do not show (permissions, a full disk, a
    missing directory).  A path stands for the file it names: the map
    has one key for a file, so that two paths of the model are two
    files (no links, no second spelling of a path).  What is proved of
    runs below is stated on the paths of the command line. *)
Record world : Type := World {
  files : gmap string file;
  now : Timespec.t;
  fails : syscall -> string -> bool
}.

Inductive event : Type :=
| EvStat (path : string)
| EvOpenRead (path : string)
| EvRead (path : string) (count : Z)
| EvOpenWrite (path : string)
| EvWrite (path : string) (data : list Z)
| EvUtimes (path : string) (times : Timeval.t * Timeval.t).

Definition zero_time : Timespec.t := Timespec.make 0 0.

(** [stat]: 0 and the metadata, or -1 (no such file, no permission,
    or a size that [off_t] cannot hold: EOVERFLOW). *)
Definition stat (path : string) (w : world) : Z * stat_t :=
  match files w !! path with
  | Some f =>
      if fails w SysStat path
         || negb (Z.of_nat (length (f_data f)) <=? Int64.max_signed)
      then (-1, Stat 0 zero_time zero_time)
      else (0, Stat (Z.of_nat (length (f_data f))) (f_atime f) (f_mtime f))
  | None => (-1, Stat 0 zero_time zero_time)
  end.

(** Opening for reading succeeds on an existing file. *)
Definition open_read (path : string) (w : world) : bool :=
  match files w !! path with
  | Some _ => negb (fails w SysOpenRead path)
  | None => false
  end.

(** The access time of a file after [count] of its bytes were read:
    the file system stamps it when bytes were delivered; a read that
    delivers no byte leaves it as it is. *)
Definition atime_after_read (w : world) (f : file) (count : Z) : Timespec.t :=
  if count =? 0 then f_atime f else now w.

(** Reading [count] bytes from the start of the file: the bytes, or
    [None] when the file is shorter or the read fails. *)
Definition read (path : string) (count : Z) (w : world) : option (list Z) * world :=
  match files w !! path with
  | Some f =>
      if fails w SysRead path || negb (count <=? Z.of_nat (length (f_data f)))
      then (None, w)
      else (Some (take (Z.to_nat count) (f_data f)),
            World (<[path := File (f_data f) (atime_after_read w f count) (f_mtime f)]>
                     (files w))
                  (now w) (fails w))
  | None => (None, w)
  end.

(** Opening for writing with [std::ios::trunc] creates the file or
    empties it. *)
Definition open_write_trunc (path : string) (w : world) : bool * world :=
  if fails w SysOpenWrite path then (false, w)
  else
    let atime := match files w !! path with
                 | Some f => f_atime f
                 | None => now w
                 end in
    (true, World (<[path := File [] atime (now w)]> (files w)) (now w) (fails w)).

(** Writing [data] to the stream just opened on [path], as the test
    of the stream that follows the write sees it: the bytes are in
    the file, or the write failed.  A stream may keep the bytes until
    it is closed and then report nothing; the statements on runs that
    depend on the bytes written assume a write that does not fail. *)
Definition write (path : string) (data : list Z) (w : world) : bool * world :=
  match files w !! path with
  | Some f =>
      if fails w SysWrite path then (false, w)
      else (true, World (<[path := File data (f_atime f) (now w)]> (files w))
                        (now w) (fails w))
  | None => (false, w)
  end.

(** [utimes]: 0 when the times were set, -1 otherwise. *)
Definition utimes (path : string) (times : Timeval.t * Timeval.t) (w : world) : Z * world :=
  match files w !! path with
  | Some f =>
      if fails w SysUtimes path then (-1, w)
      else (0, World (<[path := File (f_data f)
                                    (timespec_of_timeval (fst times))
                                    (timespec_of_timeval (snd times))]> (files w))
                     (now w) (fails w))
  | None => (-1, w)
  end.

End Posix.

(** ** The process

    [main] runs against a state: the world outside, what was printed
    on the two streams, the system calls made so far (latest last), and
    the buffers [secureZero] was run over, as it left them.  A
    computation either goes on with a value, leaves the function by
    [return], throws, or has no defined behaviour (a store out of
    bounds).  Memory is not bounded: no allocation fails. *)

Record proc_state : Type := ProcState {
  os : Posix.world;
  cout : string;
  cerr : string;
  trace : list Posix.event;
  wiped : list (list Z)
}.

Inductive outcome (A : Type) : Type :=
| Val (a : A)
| Exit (code : Z)
| Raise (e : exception)
| Undefined.
Arguments Val {A} a.
Arguments Exit {A} code.
Arguments Raise {A} e.
Arguments Undefined {A}.

Definition Proc (A : Type) : Type := proc_state -> outcome A * proc_state.

Global Instance Proc_ret : MRet Proc := fun A a s => (Val a, s).

Global Instance Proc_bind : MBind Proc := fun A B k m s =>
  match m s with
  | (Val a, s') => k a s'
  | (Exit code, s') => (Exit code, s')
  | (Raise e, s') => (Raise e, s')
  | (Undefined, s') => (Undefined, s')
  end.

Definition skip : Proc unit := mret tt.
Definition exit {A} (code : Z) : Proc A := fun s => (Exit code, s).
Definition raise {A} (e : exception) : Proc A := fun s => (Raise e, s).

(** [try { body } catch (const std::exception &ex) { handler ex }] *)
Definition try_catch {A} (body : Proc A) (handler : exception -> Proc A) : Proc A :=
  fun s =>
    match body s with
    | (Raise ex, s') => handler ex s'
    | r => r
    end.

(** A function body: a [return] inside it is the value of the call. *)
Definition returning (body : Proc Z) : Proc Z := fun s =>
  match body s with
  | (Exit code, s') => (Val code, s')
  | r => r
  end.

(** A call that may throw. *)
Definition try_result {A} (r : result A) : Proc A := fun s =>
  match r with
  | Return a => (Val a, s)
  | Throw e => (Raise e, s)
  end.

(** A memory operation that must stay inside its object. *)
Definition defined {A} (o : option A) : Proc A := fun s =>
  match o with
  | Some a => (Val a, s)
  | None => (Undefined, s)
  end.

Definition put_cout (msg : string) : Proc unit := fun s =>
  (Val tt, ProcState (os s) (cout s +:+ msg) (cerr s) (trace s) (wiped s)).

Definition put_cerr (msg : string) : Proc unit := fun s =>
  (Val tt, ProcState (os s) (cout s) (cerr s +:+ msg) (trace s) (wiped s)).

Definition note_wiped (mem : list Z) : Proc unit := fun s =>
  (Val tt, ProcState (os s) (cout s) (cerr s) (trace s) (wiped s ++ [mem])).

(** A system call: it acts on the world and is appended to the trace. *)
Definition syscall {A} (ev : Posix.event) (call : Posix.world -> A * Posix.world) : Proc A :=
  fun s =>
    let '(a, w) := call (os s) in
    (Val a, ProcState w (cout s) (cerr s) (trace s ++ [ev]) (wiped s)).

Definition sys_stat (path : string) : Proc (Z * Posix.stat_t) :=
  syscall (Posix.EvStat path) (fun w => (Posix.stat path w, w)).

Definition ifstream_open (path : string) : Proc bool :=
  syscall (Posix.EvOpenRead path) (fun w => (Posix.open_read path w, w)).

Definition ifstream_read (path : string) (count : Z) : Proc (option (list Z)) :=
  syscall (Posix.EvRead path count) (Posix.read path count).

Definition ofstream_open (path : string) : Proc bool :=
  syscall (Posix.EvOpenWrite path) (Posix.open_write_trunc path).

Definition ofstream_write (path : string) (data : list Z) : Proc bool :=
  syscall (Posix.EvWrite path data) (Posix.write path data).

Definition sys_utimes (path : string) (times : Posix.Timeval.t * Posix.Timeval.t) : Proc Z :=
  syscall (Posix.EvUtimes path times) (Posix.utimes path times).

(** ** [main] *)

Definition nl : string := String "010" EmptyString.
Definition dquote : string := String "034" EmptyString.

(** The bytes of a [std::string]. *)
Definition bytes_of_string (s : string) : list Z :=
  (fun c => Z.of_nat (nat_of_ascii c)) <$> list_ascii_of_string s.

(** [static_cast<suseconds_t>]: 32 bits, signed. *)
Definition to_suseconds (z : Z) : Z :=
  (z + 2 ^ 31) mod 2 ^ 32 - 2 ^ 31.

(** The loop that overwrites the buffer, lines 135 to 139.  [rest] is
    [binData] from index [i] on.  The answer carries, next to the
    buffer, the indices stored to (latest last); it is [None] when a
    store falls outside the buffer. *)
Fixpoint patch_loop (pos fileSize : Z) (rest : list Z) (i : Z)
    (buffer : list Z) (stored : list Z) : option (list Z * list Z) :=
  match rest with
  | [] => Some (buffer, stored)
  | b :: rest' =>
      let dstPos := Int64.wrap_signed (pos + Int64.wrap_signed i) in
      if fileSize <=? dstPos then Some (buffer, stored)
      else
        buffer' ← store buffer (Int64.wrap_unsigned dstPos) b;
        patch_loop pos fileSize rest' (Int64.wrap_unsigned (i + 1))
                   buffer' (stored ++ [dstPos])
  end.

(** Lines 134 to 140: the guard and the loop. *)
Definition apply_patch (pos fileSize : Z) (binData buffer : list Z)
    : option (list Z * list Z) :=
  if (0 <=? pos) && (Int64.wrap_signed pos <? fileSize) then
    patch_loop pos fileSize binData 0 buffer []
  else Some (buffer, []).

Section Main.

Variable argv : list string.

Definition argc : Z := Z.of_nat (length argv).

(** [argv[k]] *)
Definition arg (k : nat) : string := default EmptyString (argv !! k).

(** The body of the [try] block. *)
Definition main_try : Proc Z :=
  let pos := Posix.strtol (arg 2) in
  let hexStr := arg 4 in
  (if 1000 <? Z.of_nat (String.length hexStr) then
     raise (runtime_error "HEX data length exceeds maximum allowed (1000 characters).")
   else skip);;
  let srcFile := arg 6 in
  let dstFile := arg 8 in
  '(rc, st) ← sys_stat srcFile;
  (if negb (rc =? 0) then
     put_cerr ("Error: stat() failed for " +:+ srcFile +:+ nl);; exit 1
   else skip);;
  let fileSize := Posix.st_size st in
  let buffer := replicate (Z.to_nat fileSize) 0 in
  is_open ← ifstream_open srcFile;
  (if negb is_open then
     put_cerr ("Error: could not open file " +:+ srcFile +:+ nl);; exit 1
   else skip);;
  got ← ifstream_read srcFile fileSize;
  buffer ← match got with
           | Some data => mret (data ++ drop (length data) buffer)
           | None =>
               put_cerr ("Error: reading file " +:+ srcFile +:+ " failed" +:+ nl);;
               exit 1
           end;
  binData ← try_result (parseHexString hexStr);
  hexMem ← defined (secureZero (bytes_of_string hexStr) 0
                               (Z.of_nat (String.length hexStr)));
  note_wiped hexMem;;
  patched ← defined (apply_patch pos fileSize binData buffer);
  let buffer := fst patched in
  (match binData with
   | [] => skip
   | _ :: _ =>
       binMem ← defined (secureZero binData 0 (Z.of_nat (length binData)));
       note_wiped binMem
   end);;
  is_open ← ofstream_open dstFile;
  (if negb is_open then
     put_cerr ("Error: could not create file " +:+ dstFile +:+ nl);; exit 1
   else skip);;
  written ← ofstream_write dstFile (take (Z.to_nat fileSize) buffer);
  (if negb written then
     put_cerr ("Error: writing to file " +:+ dstFile +:+ " failed" +:+ nl);; exit 1
   else skip);;
  let times :=
    (Posix.Timeval.make
       (Posix.Timespec.tv_sec (Posix.st_atimespec st))
       (to_suseconds (Z.quot (Posix.Timespec.tv_nsec (Posix.st_atimespec st)) 1000)),
     Posix.Timeval.make
       (Posix.Timespec.tv_sec (Posix.st_mtimespec st))
       (to_suseconds (Z.quot (Posix.Timespec.tv_nsec (Posix.st_mtimespec st)) 1000))) in
  rc ← sys_utimes dstFile times;
  (if negb (rc =? 0) then
     put_cerr ("Error: utimes failed for " +:+ dstFile +:+ nl);; exit 1
   else skip);;
  put_cout ("File " +:+ dquote +:+ srcFile +:+ dquote +:+ " modified and saved as "
            +:+ dquote +:+ dstFile +:+ dquote +:+ nl);;
  exit 0.

(** The [catch] clause. *)
Definition main_catch (ex : exception) : Proc Z :=
  put_cerr ("Error: " +:+ what ex +:+ nl);; exit 1.

(** The body of [main]: the two checks of the arguments, then the
    [try] block with its handler. *)
Definition main_body : Proc Z :=
  (if negb (argc =? 9) then
     put_cerr ("Usage: " +:+ arg 0
               +:+ " -pos X -w " +:+ dquote +:+ "HEXDATA" +:+ dquote
               +:+ " -r SOURCE_FILE -o OUTPUT_FILE" +:+ nl);; exit 1
   else skip);;
  (if negb (String.eqb (arg 1) "-pos")
      || negb (String.eqb (arg 3) "-w")
      || negb (String.eqb (arg 5) "-r")
      || negb (String.eqb (arg 7) "-o") then
     put_cerr ("Invalid parameter order." +:+ nl);; exit 1
   else skip);;
  try_catch main_try main_catch.

Definition main : Proc Z := returning main_body.

End Main.

(** A run from a fresh process. *)
Definition start (w : Posix.world) : proc_state := ProcState w "" "" [] [].

Definition run (argv : list string) (w : Posix.world) : outcome Z * proc_state :=
  main argv (start w).

(** ** The vocabulary of the specification

    The definitions of this module are not in the source: they say
    what the specification means by a hex digit, by the rendering of a
    byte as two hex digits, by letter case, and by an all-decimal
    argument.  The theorems compare the code above with them. *)

Module Spec.

(** The place of a character in a string, counted from [n]. *)
Fixpoint index_from (n : Z) (c : ascii) (s : string) : option Z :=
  match s with
  | EmptyString => None
  | String d rest => if Ascii.eqb c d then Some n else index_from (n + 1) c rest
  end.

(** The characters [0-9a-fA-F] and their values: the value of a digit
    is its place among the sixteen digits, in either case. *)
Definition hex_digit_value (c : ascii) : option Z :=
  match index_from 0 c "0123456789abcdef" with
  | Some v => Some v
  | None => index_from 0 c "0123456789ABCDEF"
  end.

Definition is_hex_digit (c : ascii) : bool :=
  match hex_digit_value c with Some _ => true | None => false end.

Fixpoint all_hex (s : string) : bool :=
  match s with
  | EmptyString => true
  | String c rest => is_hex_digit c && all_hex rest
  end.

(** What makes the decoder refuse a string. *)
Definition malformed (s : string) : Prop :=
  Nat.Odd (String.length s) \/
  exists i c, String.get i s = Some c /\ hex_digit_value c = None.

(** The bytes two consecutive digits stand for: high nibble first. *)
Fixpoint hex_pairs (s : string) : list Z :=
  match s with
  | String c0 (String c1 rest) =>
      (16 * default 0 (hex_digit_value c0) + default 0 (hex_digit_value c1))
        :: hex_pairs rest
  | _ => []
  end.

Definition upper_digit (v : Z) : ascii :=
  default "?"%char (String.get (Z.to_nat v) "0123456789ABCDEF").

Definition lower_digit (v : Z) : ascii :=
  default "?"%char (String.get (Z.to_nat v) "0123456789abcdef").

(** A byte as two hex digits, each byte in turn. *)
Fixpoint hex_encode (digit : Z -> ascii) (bytes : list Z) : string :=
  match bytes with
  | [] => EmptyString
  | b :: rest =>
      String (digit (b / 16)) (String (digit (b mod 16)) (hex_encode digit rest))
  end.

Definition to_lower (c : ascii) : ascii :=
  let n := nat_of_ascii c in
  if (65 <=? n)%nat && (n <=? 90)%nat then ascii_of_nat (n + 32) else c.

Fixpoint string_map (f : ascii -> ascii) (s : string) : string :=
  match s with
  | EmptyString => EmptyString
  | String c rest => String (f c) (string_map f rest)
  end.

(** Equality of strings up to letter case. *)
Definition eq_ignore_case (s1 s2 : string) : Prop :=
  string_map to_lower s1 = string_map to_lower s2.

(** The patch of the specification: the payload is laid over the
    buffer from [offset] on, what would land beyond the end is
    dropped, and the length stays what it was. *)
Definition overwrite (offset : nat) (payload buffer : list Z) : list Z :=
  take offset buffer
  ++ take (length buffer - offset) payload
  ++ drop (offset + length payload) buffer.

(** A buffer with [count] bytes from [offset] on set to zero. *)
Definition zeroed (offset count : nat) (mem : list Z) : list Z :=
  take offset mem ++ replicate count 0 ++ drop (offset + count) mem.

(** The contents of the destination after a patch at [pos]. *)
Definition patched (pos : Z) (payload data : list Z) : list Z :=
  if (0 <=? pos) && (pos <? Z.of_nat (length data))
  then overwrite (Z.to_nat pos) payload data
  else data.

(** Every call the run makes on [src] and [dst] goes through, and
    [src] is the file [f]. *)
Definition io_ok (w : Posix.world) (src dst : string) (f : Posix.file) : Prop :=
  Posix.files w !! src = Some f
  /\ Z.of_nat (length (Posix.f_data f)) <= Int64.max_signed
  /\ Posix.fails w Posix.SysStat src = false
  /\ Posix.fails w Posix.SysOpenRead src = false
  /\ Posix.fails w Posix.SysRead src = false
  /\ Posix.fails w Posix.SysOpenWrite dst = false
  /\ Posix.fails w Posix.SysWrite dst = false
  /\ Posix.fails w Posix.SysUtimes dst = false.

(** A string that is a base-10 integer: an optional sign, then
    decimal digits and nothing else. *)
Definition is_decimal_digit (c : ascii) : bool :=
  match index_from 0 c "0123456789" with Some _ => true | None => false end.

Fixpoint all_digits (s : string) : bool :=
  match s with
  | EmptyString => true
  | String c rest => is_decimal_digit c && all_digits rest
  end.

Definition digits_only (s : string) : bool :=
  match s with
  | EmptyString => false
  | String _ _ => all_digits s
  end.

Definition is_sign (c : ascii) : bool :=
  match c with
  | "+" | "-" => true
  | _ => false
  end%char.

Definition is_decimal_integer (s : string) : bool :=
  match s with
  | String c rest => if is_sign c then digits_only rest else digits_only s
  | EmptyString => false
  end.

(** A string that starts with a number: white space, an optional
    sign, and then at least one decimal digit, whatever follows. *)
Definition is_space (c : ascii) : bool :=
  match c with
  | " " | "009" | "010" | "011" | "012" | "013" => true
  | _ => false
  end%char.

Fixpoint drop_spaces (s : string) : string :=
  match s with
  | String c rest => if is_space c then drop_spaces rest else s
  | EmptyString => s
  end.

Definition starts_with_digit (s : string) : bool :=
  match s with
  | String c _ => is_decimal_digit c
  | EmptyString => false
  end.

Definition has_leading_number (s : string) : bool :=
  match drop_spaces s with
  | String c rest => if is_sign c then starts_with_digit rest
                     else is_decimal_digit c
  | EmptyString => false
  end.

(** The arguments after the name of the program are four pairs of a
    flag and a value, with the flags [-pos], [-w], [-r], [-o] in this
    order. *)
Definition well_formed_args (args : list string) : Prop :=
  length args = 8%nat
  /\ args !! 0%nat = Some "-pos"%string
  /\ args !! 2%nat = Some "-w"%string
  /\ args !! 4%nat = Some "-r"%string
  /\ args !! 6%nat = Some "-o"%string.

(** A time stamp a file system can hold. *)
Definition valid_time (t : Posix.Timespec.t) : Prop :=
  0 <= Posix.Timespec.tv_nsec t < 1000000000.

(** The command line [prog -pos pos -w hex -r src -o dst]. *)
Definition command_line (prog pos hex src dst : string) : list string :=
  [prog; "-pos"; pos; "-w"; hex; "-r"; src; "-o"; dst]%string.

End Spec.

(** The time stamp the destination gets for a time [t] read by [stat]:
    lines 165 to 168 of [main], then what [utimes] keeps of the
    [timeval]. *)
Definition utimes_stamp (t : Posix.Timespec.t) : Posix.Timespec.t :=
  Posix.timespec_of_timeval
    (Posix.Timeval.make (Posix.Timespec.tv_sec t)
                        (to_suseconds (Z.quot (Posix.Timespec.tv_nsec t) 1000))).

(** The two [timeval]s handed to [utimes]. *)
Definition utimes_arg (f : Posix.file) : Posix.Timeval.t * Posix.Timeval.t :=
  (Posix.Timeval.make (Posix.Timespec.tv_sec (Posix.f_atime f))
     (to_suseconds (Z.quot (Posix.Timespec.tv_nsec (Posix.f_atime f)) 1000)),
   Posix.Timeval.make (Posix.Timespec.tv_sec (Posix.f_mtime f))
     (to_suseconds (Z.quot (Posix.Timespec.tv_nsec (Posix.f_mtime f)) 1000))).

(** The system calls of a run that goes through, in order. *)
Definition success_trace (src dst : string) (f : Posix.file) (written : list Z)
    : list Posix.event :=
  [Posix.EvStat src;
   Posix.EvOpenRead src;
   Posix.EvRead src (Z.of_nat (length (Posix.f_data f)));
   Posix.EvOpenWrite dst;
   Posix.EvWrite dst written;
   Posix.EvUtimes dst (utimes_arg f)].

(** What has to hold for a run to go through: the payload is short
    enough and decodes to [binData], and the calls on the two files
    succeed. *)
Definition run_goes_through (w : Posix.world) (hexStr src dst : string)
    (f : Posix.file) (binData : list Z) : Prop :=
  (String.length hexStr <= 1000)%nat
  /\ Spec.io_ok w src dst f
  /\ parseHexString hexStr = Return binData.

(** A world for the examples: one file of four bytes, and no call
    fails. *)
Definition demo_file : Posix.file :=
  Posix.File [1; 2; 3; 4]
             (Posix.Timespec.make 1700000000 123456789)
             (Posix.Timespec.make 1600000000 987654321).

Definition demo_world : Posix.world :=
  Posix.World {[ "in.bin"%string := demo_file ]}
              (Posix.Timespec.make 1800000000 5)
              (fun _ _ => false).

(** ** Vocabulary for the further properties *)

(** The first character of a string that is no hex digit. *)
Fixpoint first_non_hex (s : string) : option ascii :=
  match s with
  | EmptyString => None
  | String c rest => if Spec.is_hex_digit c then first_non_hex rest else Some c
  end.

Definition to_upper (c : ascii) : ascii :=
  let n := nat_of_ascii c in
  if (97 <=? n)%nat && (n <=? 122)%nat then ascii_of_nat (n - 32) else c.

(** The lines the program prints. *)
Definition usage_line (prog : string) : string :=
  "Usage: " +:+ prog +:+ " -pos X -w " +:+ dquote +:+ "HEXDATA" +:+ dquote
  +:+ " -r SOURCE_FILE -o OUTPUT_FILE" +:+ nl.

Definition success_line (src dst : string) : string :=
  "File " +:+ dquote +:+ src +:+ dquote +:+ " modified and saved as "
  +:+ dquote +:+ dst +:+ dquote +:+ nl.

(** * Proofs *)

(** ** Machine integers *)

Lemma wrap_signed_id z : Int64.in_signed z -> Int64.wrap_signed z = z.
Proof.
  unfold Int64.in_signed, Int64.wrap_signed, Int64.min_signed,
    Int64.max_signed, Int64.modulus.
  intros Hz. rewrite Z.mod_small; lia.
Qed.

Lemma wrap_unsigned_id z : Int64.in_unsigned z -> Int64.wrap_unsigned z = z.
Proof.
  unfold Int64.in_unsigned, Int64.wrap_unsigned. intros Hz. by apply Z.mod_small.
Qed.

(** ** The hex decoder *)

Example parseHexString_doc :
  parseHexString "0102030A" = Return [1; 2; 3; 10].
Proof. reflexivity. Qed.

Example parseHexString_12G4 :
  parseHexString "12G4" = Throw (runtime_error "Invalid hex character: G").
Proof. reflexivity. Qed.

Ltac each_char c := destruct c as [[] [] [] [] [] [] [] []].

(** [hexVal] accepts the hex digits of the specification, with the
    same values, and throws on every other character. *)
Lemma hexVal_spec (c : ascii) :
  hexVal c =
  match Spec.hex_digit_value c with
  | Some v => Return v
  | None => Throw (runtime_error ("Invalid hex character: " +:+ String c EmptyString))
  end.
Proof. each_char c; reflexivity. Qed.

Lemma hex_digit_value_range (c : ascii) (v : Z) :
  Spec.hex_digit_value c = Some v -> 0 <= v < 16.
Proof. each_char c; simpl; intros [= <-] || discriminate; lia. Qed.

Lemma hexVal_NUL : exists msg, hexVal "000" = Throw (runtime_error msg).
Proof. eexists. reflexivity. Qed.

(** With both nibbles below 16 the shift and the or are a sum, and the
    cast to [unsigned char] loses nothing. *)
Lemma byteVal_nibbles (hi lo : Z) :
  0 <= hi < 16 -> 0 <= lo < 16 -> byteVal hi lo = 16 * hi + lo.
Proof.
  intros Hhi Hlo. unfold byteVal, to_uchar.
  assert (Hland : Z.land (Z.shiftl hi 4) lo = 0).
  { apply Z.bits_inj'. intros n Hn.
    rewrite Z.land_spec, Z.bits_0.
    destruct (Z.lt_ge_cases n 4) as [Hlt | Hge].
    - rewrite Z.shiftl_spec_low by lia. done.
    - assert (Z.testbit lo n = false) as ->; [| apply andb_false_r].
      destruct (Z.eq_dec lo 0) as [-> | Hne]; [apply Z.bits_0 |].
      apply Z.bits_above_log2; [lia |].
      assert (Z.log2 lo < 4); [| lia].
      apply Z.log2_lt_pow2; lia. }
  rewrite <- Z.lxor_lor, <- Z.add_nocarry_lxor by exact Hland.
  rewrite Z.shiftl_mul_pow2 by lia.
  rewrite Z.mod_small; lia.
Qed.

Lemma string_pair_ind (P : string -> Prop) :
  P EmptyString ->
  (forall c, P (String c EmptyString)) ->
  (forall c0 c1 rest, P rest -> P (String c0 (String c1 rest))) ->
  forall s, P s.
Proof.
  intros H0 H1 H2. fix IH 1.
  intros [| c0 [| c1 rest]]; [exact H0 | apply H1 | apply H2, IH].
Qed.

Lemma length_parity (n : nat) :
  negb (Z.of_nat n mod 2 =? 0) = Nat.odd n.
Proof.
  destruct (Nat.Even_or_Odd n) as [[k ->] | [k ->]].
  - rewrite Nat.odd_even.
    replace (Z.of_nat (2 * k) mod 2) with 0; [done |].
    rewrite Nat2Z.inj_mul, Z.mul_comm, Z.mod_mul; lia.
  - rewrite Nat.odd_odd.
    replace (Z.of_nat (2 * k + 1) mod 2) with 1; [done |].
    rewrite Nat2Z.inj_add, Nat2Z.inj_mul, Z.add_comm, Z.mul_comm, Z.mod_add; [done | lia].
Qed.

(** The loop on a string of hex digits of even length. *)
Lemma parseHexString_loop_ok (s : string) :
  forall acc,
    Spec.all_hex s = true -> Nat.odd (String.length s) = false ->
    parseHexString_loop s acc = Return (acc ++ Spec.hex_pairs s).
Proof.
  induction s as [| c | c0 c1 rest IH] using string_pair_ind; intros acc Hhex Hlen.
  - simpl. by rewrite app_nil_r.
  - discriminate.
  - simpl in Hhex. unfold Spec.is_hex_digit in Hhex.
    destruct (Spec.hex_digit_value c0) as [hi |] eqn:E0; [| done].
    destruct (Spec.hex_digit_value c1) as [lo |] eqn:E1; [| done].
    cbn [parseHexString_loop]. rewrite !hexVal_spec, E0, E1. cbn [mbind result_bind].
    rewrite IH by done.
    rewrite byteVal_nibbles by eauto using hex_digit_value_range.
    cbn [Spec.hex_pairs]. rewrite E0, E1. cbn [default].
    by rewrite <- app_assoc.
Qed.

(** The loop throws as soon as it meets a character that is no hex
    digit, whatever the length. *)
Lemma parseHexString_loop_bad (s : string) :
  forall acc,
    Spec.all_hex s = false ->
    exists msg, parseHexString_loop s acc = Throw (runtime_error msg).
Proof.
  induction s as [| c | c0 c1 rest IH] using string_pair_ind; intros acc Hhex.
  - discriminate.
  - cbn [parseHexString_loop]. rewrite (hexVal_spec c).
    destruct (Spec.hex_digit_value c); cbn [mbind result_bind]; [| by eexists].
    destruct hexVal_NUL as [msg ->]. by eexists.
  - cbn [parseHexString_loop]. rewrite !hexVal_spec.
    simpl in Hhex. unfold Spec.is_hex_digit in Hhex.
    destruct (Spec.hex_digit_value c0); cbn [mbind result_bind]; [| by eexists].
    destruct (Spec.hex_digit_value c1); cbn [mbind result_bind]; [| by eexists].
    apply IH. done.
Qed.

Lemma all_hex_false_iff (s : string) :
  Spec.all_hex s = false <->
  exists i c, String.get i s = Some c /\ Spec.hex_digit_value c = None.
Proof.
  induction s as [| c rest IH]; simpl.
  - split; [done | intros (i & c & Hget & _); done].
  - unfold Spec.is_hex_digit at 1.
    destruct (Spec.hex_digit_value c) eqn:E; simpl.
    + rewrite IH. split.
      * intros (i & c' & Hget & Hc'). by exists (S i), c'.
      * intros ([| i] & c' & Hget & Hc'); simpl in Hget; [congruence | eauto].
    + split; [intros _; by exists 0%nat, c | done].
Qed.

Lemma hex_pairs_length (s : string) :
  length (Spec.hex_pairs s) = (String.length s / 2)%nat.
Proof.
  induction s as [| c | c0 c1 rest IH] using string_pair_ind; [done | done |].
  cbn [Spec.hex_pairs length String.length]. rewrite IH.
  change (S (S (String.length rest))) with (1 * 2 + String.length rest)%nat.
  by rewrite Nat.div_add_l.
Qed.

Lemma hex_pairs_lookup (s : string) :
  Spec.all_hex s = true ->
  forall i, (i < String.length s / 2)%nat ->
    exists c0 c1 hi lo,
      String.get (2 * i) s = Some c0 /\ String.get (2 * i + 1) s = Some c1 /\
      Spec.hex_digit_value c0 = Some hi /\ Spec.hex_digit_value c1 = Some lo /\
      Spec.hex_pairs s !! i = Some (16 * hi + lo).
Proof.
  induction s as [| c | c0 c1 rest IH] using string_pair_ind; intros Hhex i Hi.
  - simpl in Hi. lia.
  - simpl in Hi. lia.
  - simpl in Hhex. unfold Spec.is_hex_digit in Hhex.
    destruct (Spec.hex_digit_value c0) as [hi |] eqn:E0; [| done].
    destruct (Spec.hex_digit_value c1) as [lo |] eqn:E1; [| done].
    destruct i as [| i].
    + exists c0, c1, hi, lo. cbn [Spec.hex_pairs]. rewrite E0, E1. done.
    + cbn [String.length] in Hi.
      change (S (S (String.length rest))) with (1 * 2 + String.length rest)%nat in Hi.
      rewrite Nat.div_add_l in Hi by done.
      destruct (IH Hhex i ltac:(lia)) as (d0 & d1 & h & l & G0 & G1 & V0 & V1 & Hl).
      exists d0, d1, h, l.
      replace (2 * S i)%nat with (S (S (2 * i))) by lia.
      replace (S (S (2 * i)) + 1)%nat with (S (S (2 * i + 1))) by lia.
      done.
Qed.

Lemma all_hex_true_iff (s : string) :
  Spec.all_hex s = true <->
  forall i c, String.get i s = Some c -> Spec.is_hex_digit c = true.
Proof.
  destruct (Spec.all_hex s) eqn:E.
  - split; [intros _ i c Hget | done].
    unfold Spec.is_hex_digit.
    destruct (Spec.hex_digit_value c) eqn:Ec; [done |].
    assert (Spec.all_hex s = false) by (apply all_hex_false_iff; eauto).
    congruence.
  - split; [done | intros Hall].
    apply all_hex_false_iff in E as (i & c & Hget & Hc).
    specialize (Hall i c Hget). unfold Spec.is_hex_digit in Hall.
    by rewrite Hc in Hall.
Qed.

(** The decoder, whatever the length of the string. *)
Lemma parseHexString_cases (hexStr : string) :
  if Nat.odd (String.length hexStr) then
    parseHexString hexStr = Throw (runtime_error "Hex string length is odd.")
  else if Spec.all_hex hexStr then
    parseHexString hexStr = Return (Spec.hex_pairs hexStr)
  else
    exists msg, parseHexString hexStr = Throw (runtime_error msg).
Proof.
  unfold parseHexString. rewrite length_parity.
  destruct (Nat.odd (String.length hexStr)) eqn:Hodd; [done |].
  destruct (Spec.all_hex hexStr) eqn:Hhex.
  - by rewrite parseHexString_loop_ok.
  - by apply parseHexString_loop_bad.
Qed.

Lemma malformed_iff (s : string) :
  Spec.malformed s <-> Nat.odd (String.length s) = true \/ Spec.all_hex s = false.
Proof.
  unfold Spec.malformed. by rewrite Nat.odd_spec, all_hex_false_iff.
Qed.

(** C3. For every input string of length at most 1000, [parseHexString]
    throws its format error ([std::runtime_error]) if and only if the
    length is odd or some character is outside [0-9a-fA-F]; otherwise
    it returns [length / 2] bytes, and byte [i] is 16 times the value
    of the digit at index [2 i] plus the value of the digit at index
    [2 i + 1]. *)
Theorem C3_parseHexString_decodes (hexStr : string) :
  (String.length hexStr <= 1000)%nat ->
  ((exists msg, parseHexString hexStr = Throw (runtime_error msg))
     <-> Spec.malformed hexStr)
  /\ (~ Spec.malformed hexStr ->
      exists bytes,
        parseHexString hexStr = Return bytes
        /\ length bytes = (String.length hexStr / 2)%nat
        /\ forall i, (i < String.length hexStr / 2)%nat ->
             exists c0 c1 hi lo,
               String.get (2 * i) hexStr = Some c0
               /\ String.get (2 * i + 1) hexStr = Some c1
               /\ Spec.hex_digit_value c0 = Some hi
               /\ Spec.hex_digit_value c1 = Some lo
               /\ bytes !! i = Some (16 * hi + lo)).
Proof.
  intros _. rewrite malformed_iff.
  pose proof (parseHexString_cases hexStr) as Hcases.
  destruct (Nat.odd (String.length hexStr)) eqn:Hodd.
  { split; [| intros []; by left]. split; [by left | intros _; by eexists]. }
  destruct (Spec.all_hex hexStr) eqn:Hhex.
  - split.
    + split; [intros [msg Hmsg]; congruence | intros [|]; done].
    + intros _. exists (Spec.hex_pairs hexStr).
      split; [done |]. split; [apply hex_pairs_length |].
      by apply hex_pairs_lookup.
  - split; [| intros []; by right]. split; [by right | done].
Qed.

Lemma C3_parseHexString_decodes_witness :
  (String.length "0102030A" <= 1000)%nat
  /\ ((exists msg, parseHexString "0102030A" = Throw (runtime_error msg))
      <-> Spec.malformed "0102030A").
Proof.
  split; [simpl; lia |].
  apply (C3_parseHexString_decodes "0102030A"). simpl; lia.
Defined.

(** ** Decoding, then encoding *)

Lemma digit_case (c : ascii) (v : Z) :
  Spec.hex_digit_value c = Some v ->
  Spec.to_lower (Spec.upper_digit v) = Spec.to_lower c
  /\ Spec.to_lower (Spec.lower_digit v) = Spec.to_lower c.
Proof. each_char c; simpl; intros [= <-] || discriminate; done. Qed.

Lemma nibbles_of_byte (hi lo : Z) :
  0 <= hi < 16 -> 0 <= lo < 16 ->
  (16 * hi + lo) / 16 = hi /\ (16 * hi + lo) mod 16 = lo.
Proof. intros Hhi Hlo. Z.div_mod_to_equations. lia. Qed.

Lemma hex_pairs_cons (c0 c1 : ascii) (rest : string) (hi lo : Z) :
  Spec.hex_digit_value c0 = Some hi -> Spec.hex_digit_value c1 = Some lo ->
  Spec.hex_pairs (String c0 (String c1 rest)) = (16 * hi + lo) :: Spec.hex_pairs rest.
Proof. intros E0 E1. cbn [Spec.hex_pairs]. by rewrite E0, E1. Qed.

Lemma hex_encode_cons (digit : Z -> ascii) (b : Z) (rest : list Z) :
  Spec.hex_encode digit (b :: rest) =
  String (digit (b / 16)) (String (digit (b mod 16)) (Spec.hex_encode digit rest)).
Proof. reflexivity. Qed.

Lemma hex_encode_pairs (s : string) :
  Spec.all_hex s = true -> Nat.odd (String.length s) = false ->
  Spec.eq_ignore_case (Spec.hex_encode Spec.upper_digit (Spec.hex_pairs s)) s
  /\ Spec.eq_ignore_case (Spec.hex_encode Spec.lower_digit (Spec.hex_pairs s)) s.
Proof.
  unfold Spec.eq_ignore_case.
  induction s as [| c | c0 c1 rest IH] using string_pair_ind; intros Hhex Hlen.
  - done.
  - discriminate.
  - simpl in Hhex. unfold Spec.is_hex_digit in Hhex.
    destruct (Spec.hex_digit_value c0) as [hi |] eqn:E0; [| done].
    destruct (Spec.hex_digit_value c1) as [lo |] eqn:E1; [| done].
    destruct (IH Hhex Hlen) as [IHu IHl].
    pose proof (hex_digit_value_range _ _ E0) as Hhi.
    pose proof (hex_digit_value_range _ _ E1) as Hlo.
    destruct (nibbles_of_byte hi lo Hhi Hlo) as [Hdiv Hmod].
    destruct (digit_case _ _ E0) as [U0 L0].
    destruct (digit_case _ _ E1) as [U1 L1].
    rewrite (hex_pairs_cons _ _ _ _ _ E0 E1), !hex_encode_cons, Hdiv, Hmod.
    cbn [Spec.string_map]. split; congruence.
Qed.

(** C5. For every even-length string of hex digits, decoding it and
    rendering each byte as two hex digits, in upper or in lower case,
    gives the original string back up to letter case. *)
Theorem C5_decode_encode_roundtrip (hexStr : string) :
  Nat.Even (String.length hexStr) ->
  (forall i c, String.get i hexStr = Some c -> Spec.is_hex_digit c = true) ->
  exists bytes,
    parseHexString hexStr = Return bytes
    /\ Spec.eq_ignore_case (Spec.hex_encode Spec.upper_digit bytes) hexStr
    /\ Spec.eq_ignore_case (Spec.hex_encode Spec.lower_digit bytes) hexStr.
Proof.
  intros Heven Hall.
  apply all_hex_true_iff in Hall.
  assert (Nat.odd (String.length hexStr) = false) as Hodd.
  { rewrite <- Nat.negb_even. apply Nat.even_spec in Heven. by rewrite Heven. }
  pose proof (parseHexString_cases hexStr) as Hcases.
  rewrite Hodd, Hall in Hcases.
  exists (Spec.hex_pairs hexStr). split; [done |].
  by apply hex_encode_pairs.
Qed.

Lemma C5_decode_encode_roundtrip_witness :
  exists bytes,
    parseHexString "c0FFee" = Return bytes
    /\ Spec.eq_ignore_case (Spec.hex_encode Spec.upper_digit bytes) "c0FFee"
    /\ Spec.eq_ignore_case (Spec.hex_encode Spec.lower_digit bytes) "c0FFee".
Proof.
  apply (C5_decode_encode_roundtrip "c0FFee").
  - exists 3%nat. reflexivity.
  - intros i c Hget.
    do 6 (destruct i as [| i]; [injection Hget as <-; reflexivity |]).
    discriminate.
Defined.

(** ** Stores, and the secure wipe *)

Example secureZero_middle :
  secureZero [7; 8; 9; 10] 1 2 = Some [7; 0; 0; 10].
Proof. reflexivity. Qed.

Lemma store_in_bounds (mem : list Z) (p : nat) (v : Z) :
  (p < length mem)%nat -> store mem (Z.of_nat p) v = Some (<[p := v]> mem).
Proof.
  intros Hp. unfold store. rewrite Nat2Z.id.
  destruct (Z.leb_spec 0 (Z.of_nat p)); [| lia].
  destruct (Z.ltb_spec (Z.of_nat p) (Z.of_nat (length mem))); [done | lia].
Qed.

Lemma secureZero_loop_zeroed (rounds : nat) :
  forall (mem : list Z) (p : nat),
    (p + rounds <= length mem)%nat ->
    secureZero_loop rounds mem (Z.of_nat p) = Some (Spec.zeroed p rounds mem).
Proof.
  unfold Spec.zeroed.
  induction rounds as [| rounds IH]; intros mem p Hfit; cbn [secureZero_loop].
  - rewrite Nat.add_0_r. cbn [replicate app]. by rewrite take_drop.
  - rewrite store_in_bounds by lia. cbn [mbind option_bind].
    replace (Z.of_nat p + 1) with (Z.of_nat (S p)) by lia.
    rewrite IH by (rewrite length_insert; lia).
    rewrite (take_S_r _ p 0) by (apply list_lookup_insert_eq; lia).
    rewrite take_insert_ge by lia.
    rewrite drop_insert_lt by lia.
    rewrite <- app_assoc. cbn [replicate app].
    by replace (p + S rounds)%nat with (S p + rounds)%nat by lia.
Qed.

Lemma zeroed_length (p n : nat) (mem : list Z) :
  (p + n <= length mem)%nat -> length (Spec.zeroed p n mem) = length mem.
Proof.
  intros Hfit. unfold Spec.zeroed.
  rewrite !length_app, length_take, length_replicate, length_drop. lia.
Qed.

Lemma zeroed_lookup_inside (p n i : nat) (mem : list Z) :
  (p + n <= length mem)%nat -> (p <= i < p + n)%nat ->
  Spec.zeroed p n mem !! i = Some 0.
Proof.
  intros Hfit Hi. unfold Spec.zeroed.
  rewrite lookup_app_r by (rewrite length_take; lia).
  rewrite length_take, Nat.min_l by lia.
  rewrite lookup_app_l by (rewrite length_replicate; lia).
  apply lookup_replicate_2. lia.
Qed.

Lemma zeroed_lookup_outside (p n i : nat) (mem : list Z) :
  (p + n <= length mem)%nat -> (i < p \/ p + n <= i)%nat ->
  Spec.zeroed p n mem !! i = mem !! i.
Proof.
  intros Hfit Hi. unfold Spec.zeroed. destruct Hi as [Hlt | Hge].
  - rewrite lookup_app_l by (rewrite length_take; lia).
    by apply lookup_take_lt.
  - rewrite lookup_app_r by (rewrite length_take; lia).
    rewrite length_take, Nat.min_l by lia.
    rewrite lookup_app_r by (rewrite length_replicate; lia).
    rewrite length_replicate, lookup_drop. f_equal. lia.
Qed.

(** C9. For every buffer and every length [len] that lies in it from
    [ptr] on, [secureZero] ends, and afterwards each of the [len] bytes
    from [ptr] on is zero (the rest of the memory is as it was). *)
Theorem C9_secureZero_zeroes (mem : list Z) (ptr len : Z) :
  0 <= ptr -> Int64.in_unsigned len ->
  ptr + len <= Z.of_nat (length mem) ->
  exists mem',
    secureZero mem ptr len = Some mem'
    /\ length mem' = length mem
    /\ (forall i, ptr <= i < ptr + len -> mem' !! Z.to_nat i = Some 0)
    /\ (forall i, 0 <= i < ptr \/ ptr + len <= i ->
                  mem' !! Z.to_nat i = mem !! Z.to_nat i).
Proof.
  intros Hptr Hsize Hfit. pose proof Hsize as [Hlen _].
  exists (Spec.zeroed (Z.to_nat ptr) (Z.to_nat len) mem).
  assert (Z.to_nat ptr + Z.to_nat len <= length mem)%nat as Hfit' by lia.
  split; [| split; [| split]].
  - unfold secureZero. rewrite wrap_unsigned_id by done.
    rewrite <- (Z2Nat.id ptr) at 1 by done.
    by apply secureZero_loop_zeroed.
  - by apply zeroed_length.
  - intros i Hi. apply zeroed_lookup_inside; lia.
  - intros i Hi. apply zeroed_lookup_outside; lia.
Qed.

Lemma C9_secureZero_zeroes_witness :
  exists mem',
    secureZero [7; 8; 9; 10] 1 2 = Some mem'
    /\ length mem' = length [7; 8; 9; 10]
    /\ (forall i, 1 <= i < 1 + 2 -> mem' !! Z.to_nat i = Some 0)
    /\ (forall i, 0 <= i < 1 \/ 1 + 2 <= i ->
                  mem' !! Z.to_nat i = [7; 8; 9; 10] !! Z.to_nat i).
Proof.
  apply (C9_secureZero_zeroes [7; 8; 9; 10] 1 2).
  - lia.
  - unfold Int64.in_unsigned, Int64.modulus. lia.
  - simpl. lia.
Defined.

(** ** The patch loop *)

Lemma overwrite_length (offset : nat) (payload buffer : list Z) :
  (offset <= length buffer)%nat ->
  length (Spec.overwrite offset payload buffer) = length buffer.
Proof.
  intros Hoff. unfold Spec.overwrite.
  rewrite !length_app, !length_take, length_drop. lia.
Qed.

(** The loop from an index [i] on: the destination index [pos + i]
    has not passed the end of the buffer yet, so neither the casts nor
    the sum wrap, the loop leaves at the end of the buffer at the
    latest, and it stores to the indices from [pos + i] on, one after
    the other, all of them inside the buffer. *)
Lemma patch_loop_spec (pos fileSize : Z) (rest : list Z) :
  forall (i : Z) (buffer stored : list Z),
    0 <= pos -> 0 <= i -> pos + i <= fileSize ->
    fileSize <= Int64.max_signed ->
    Z.of_nat (length buffer) = fileSize ->
    patch_loop pos fileSize rest i buffer stored =
      Some (Spec.overwrite (Z.to_nat (pos + i)) rest buffer,
            stored ++ seqZ (pos + i)
                           (Z.min (Z.of_nat (length rest)) (fileSize - (pos + i)))).
Proof.
  unfold Int64.max_signed.
  induction rest as [| b rest IH]; intros i buffer stored Hpos Hi Hend Hmax Hlen;
    cbn [patch_loop].
  - f_equal. f_equal.
    + unfold Spec.overwrite. rewrite take_nil, Nat.add_0_r. cbn [app].
      by rewrite take_drop.
    + rewrite Z.min_l by (cbn [length]; lia). cbn [length Z.of_nat].
      by rewrite seqZ_nil, app_nil_r by lia.
  - assert (Int64.wrap_signed i = i) as ->.
    { apply wrap_signed_id. unfold Int64.in_signed, Int64.min_signed, Int64.max_signed. lia. }
    assert (Int64.wrap_signed (pos + i) = pos + i) as ->.
    { apply wrap_signed_id. unfold Int64.in_signed, Int64.min_signed, Int64.max_signed. lia. }
    destruct (Z.leb_spec fileSize (pos + i)) as [Hstop | Hgo].
    + f_equal. f_equal.
      * unfold Spec.overwrite.
        replace (length buffer - Z.to_nat (pos + i))%nat with 0%nat by lia.
        rewrite take_ge, drop_ge by lia. cbn [take app]. by rewrite app_nil_r.
      * by rewrite seqZ_nil, app_nil_r by lia.
    + assert (Int64.wrap_unsigned (pos + i) = pos + i) as ->.
      { apply wrap_unsigned_id. unfold Int64.in_unsigned, Int64.modulus. lia. }
      assert (Int64.wrap_unsigned (i + 1) = i + 1) as ->.
      { apply wrap_unsigned_id. unfold Int64.in_unsigned, Int64.modulus. lia. }
      set (k := Z.to_nat (pos + i)).
      assert (store buffer (pos + i) b = Some (<[k := b]> buffer)) as ->.
      { replace (pos + i) with (Z.of_nat k) by lia. apply store_in_bounds. lia. }
      cbn [mbind option_bind].
      rewrite IH by (rewrite ?length_insert; lia).
      f_equal. f_equal.
      * unfold Spec.overwrite.
        replace (Z.to_nat (pos + (i + 1))) with (S k) by lia.
        rewrite length_insert.
        rewrite (take_S_r _ k b) by (apply list_lookup_insert_eq; lia).
        rewrite take_insert_ge by lia.
        rewrite drop_insert_lt by lia.
        replace (length buffer - k)%nat with (S (length buffer - S k)) by lia.
        cbn [take length]. rewrite <- app_assoc. cbn [app].
        by replace (S k + length rest)%nat with (k + S (length rest))%nat by lia.
      * rewrite <- app_assoc. f_equal. cbn [app].
        rewrite (seqZ_cons (pos + i)) by (cbn [length]; lia).
        f_equal. f_equal; cbn [length]; lia.
Qed.

(** Lines 134 to 140 as a whole. *)
Lemma apply_patch_spec (pos fileSize : Z) (binData buffer : list Z) :
  Int64.in_signed pos ->
  0 <= fileSize <= Int64.max_signed ->
  Z.of_nat (length buffer) = fileSize ->
  apply_patch pos fileSize binData buffer =
    Some (if (0 <=? pos) && (pos <? fileSize)
          then Spec.overwrite (Z.to_nat pos) binData buffer
          else buffer,
          if (0 <=? pos) && (pos <? fileSize)
          then seqZ pos (Z.min (Z.of_nat (length binData)) (fileSize - pos))
          else []).
Proof.
  intros Hpos Hsize Hlen. unfold apply_patch.
  rewrite wrap_signed_id by done.
  destruct (Z.leb_spec 0 pos) as [Hge |]; cbn [andb]; [| done].
  destruct (Z.ltb_spec pos fileSize) as [Hlt |]; [| done].
  rewrite patch_loop_spec by lia. by rewrite Z.add_0_r.
Qed.

(** C10. Whatever the offset, the payload and the size of the file,
    the guard and the loop of lines 134 to 140 never store outside the
    buffer: every index [dstPos] stored to has [0 <= dstPos < fileSize],
    and the patch has a defined result. *)
Theorem C10_patch_stores_in_bounds (pos fileSize : Z) (binData buffer : list Z) :
  Int64.in_signed pos ->
  0 <= fileSize <= Int64.max_signed ->
  Z.of_nat (length buffer) = fileSize ->
  exists buffer' stored,
    apply_patch pos fileSize binData buffer = Some (buffer', stored)
    /\ Forall (fun dstPos => 0 <= dstPos < fileSize) stored
    /\ length buffer' = length buffer.
Proof.
  intros Hpos Hsize Hlen.
  rewrite apply_patch_spec by done.
  destruct (Z.leb_spec 0 pos); cbn [andb]; [| by eexists _, _].
  destruct (Z.ltb_spec pos fileSize); [| by eexists _, _].
  eexists _, _. split; [done |]. split.
  - apply Forall_seqZ. lia.
  - apply overwrite_length. lia.
Qed.

Lemma C10_patch_stores_in_bounds_witness :
  exists buffer' stored,
    apply_patch 3 4 [170; 187] [1; 2; 3; 4] = Some (buffer', stored)
    /\ Forall (fun dstPos => 0 <= dstPos < 4) stored
    /\ length buffer' = length [1; 2; 3; 4].
Proof.
  apply (C10_patch_stores_in_bounds 3 4 [170; 187] [1; 2; 3; 4]).
  - unfold Int64.in_signed, Int64.min_signed, Int64.max_signed. lia.
  - unfold Int64.max_signed. lia.
  - reflexivity.
Defined.

Example apply_patch_last_byte :
  apply_patch 3 4 [170; 187] [1; 2; 3; 4] = Some ([1; 2; 3; 170], [3]).
Proof. reflexivity. Qed.

(** ** [strtol] *)

Example strtol_examples :
  Posix.strtol "  -12abc" = -12 /\ Posix.strtol "+7" = 7
  /\ Posix.strtol "99999999999999999999999" = Int64.max_signed
  /\ Posix.strtol "x12" = 0 /\ Posix.strtol "" = 0.
Proof. repeat split. Qed.

Lemma strtol_in_signed (nptr : string) : Int64.in_signed (Posix.strtol nptr).
Proof.
  unfold Posix.strtol, Posix.clamp_long, Int64.in_signed,
    Int64.min_signed, Int64.max_signed.
  destruct (match Posix.skip_space nptr with
            | String "-" rest => (true, rest)
            | String "+" rest => (false, rest)
            | _ => (false, Posix.skip_space nptr)
            end) as [negative s].
  destruct (Posix.read_digits s None); lia.
Qed.

(** ** The run as a whole *)

Lemma secureZero_whole (mem : list Z) :
  Z.of_nat (length mem) < Int64.modulus ->
  secureZero mem 0 (Z.of_nat (length mem)) = Some (Spec.zeroed 0 (length mem) mem).
Proof.
  intros Hsize. unfold secureZero.
  rewrite wrap_unsigned_id by (unfold Int64.in_unsigned; lia).
  rewrite Nat2Z.id. by apply (secureZero_loop_zeroed (length mem) mem 0).
Qed.

Lemma parseHexString_Return (hexStr : string) (binData : list Z) :
  parseHexString hexStr = Return binData ->
  binData = Spec.hex_pairs hexStr.
Proof.
  intros Hparse. pose proof (parseHexString_cases hexStr) as Hcases.
  destruct (Nat.odd (String.length hexStr)); [congruence |].
  destruct (Spec.all_hex hexStr); [congruence |].
  destruct Hcases as [msg Hmsg]. congruence.
Qed.

Lemma bytes_of_string_length (s : string) :
  length (bytes_of_string s) = String.length s.
Proof.
  unfold bytes_of_string. rewrite length_fmap.
  induction s as [| c s IH]; [done |]. cbn [list_ascii_of_string length String.length].
  by rewrite IH.
Qed.

Lemma read_buffer (data : list Z) :
  take (Z.to_nat (Z.of_nat (length data))) data
  ++ drop (length (take (Z.to_nat (Z.of_nat (length data))) data))
          (replicate (Z.to_nat (Z.of_nat (length data))) 0)
  = data.
Proof.
  rewrite Nat2Z.id, take_ge by done.
  rewrite drop_ge by (by rewrite length_replicate).
  apply app_nil_r.
Qed.

Lemma main_command_line (prog posS hexS src dst : string) (s : proc_state) :
  main (Spec.command_line prog posS hexS src dst) s =
  returning (try_catch (main_try (Spec.command_line prog posS hexS src dst))
                       main_catch) s.
Proof. reflexivity. Qed.

Ltac proc_simpl :=
  lazy beta iota zeta delta
    [mbind mret Proc_bind Proc_ret skip exit raise try_result defined
     try_catch returning main_catch
     put_cout put_cerr note_wiped syscall sys_stat ifstream_open
     ifstream_read ofstream_open ofstream_write sys_utimes
     os cout cerr trace wiped start fst snd];
  cbn [negb Z.eqb Posix.files Posix.now Posix.fails Posix.st_size
       Posix.st_atimespec Posix.st_mtimespec].

Ltac run_fails f binData :=
  eexists 1, _; split; [reflexivity |]; right; split; [reflexivity |];
  intros (f & binData & ? & (? & ? & ? & ? & ? & ? & ? & ?) & ?).

(** Every run with a well-formed command line returns 0 or 1.  When
    the payload is short enough and decodes and every call on the two
    files succeeds it returns 0, and the destination holds the patched
    bytes under the time stamps read from the source; with every
    failure reported to the program where it happens, these are the
    only runs that return 0.  No run stores outside a buffer. *)
Lemma run_char (prog posS hexS src dst : string) (w : Posix.world) :
  exists code s',
    run (Spec.command_line prog posS hexS src dst) w = (Val code, s')
    /\ ((code = 0
         /\ exists f binData,
              run_goes_through w hexS src dst f binData
              /\ Posix.files (os s') !! dst =
                   Some (Posix.File
                           (Spec.patched (Posix.strtol posS) binData (Posix.f_data f))
                           (utimes_stamp (Posix.f_atime f))
                           (utimes_stamp (Posix.f_mtime f)))
              /\ trace s' =
                   success_trace src dst f
                     (Spec.patched (Posix.strtol posS) binData (Posix.f_data f)))
        \/ (code = 1
            /\ ~ exists f binData, run_goes_through w hexS src dst f binData)).
Proof.
  unfold run, run_goes_through, Spec.io_ok.
  rewrite main_command_line. unfold main_try.
  cbn [arg lookup list_lookup default from_option id Spec.command_line].
  proc_simpl.
  destruct (Z.ltb_spec 1000 (Z.of_nat (String.length hexS))) as [Hlong | Hlen];
    proc_simpl.
  { run_fails f' binData'. lia. }
  unfold Posix.stat.
  destruct (Posix.files w !! src) as [f |] eqn:Hf; proc_simpl;
    [| run_fails f' binData'; congruence].
  destruct (Posix.fails w Posix.SysStat src) eqn:Hstat; cbn [orb]; proc_simpl;
    [run_fails f' binData'; congruence |].
  destruct (Z.leb_spec (Z.of_nat (length (Posix.f_data f))) Int64.max_signed)
    as [Hsize | Hsize]; proc_simpl;
    [| run_fails f' binData'; simplify_eq; lia].
  unfold Posix.open_read. rewrite Hf.
  destruct (Posix.fails w Posix.SysOpenRead src) eqn:Hopen; proc_simpl;
    [run_fails f' binData'; congruence |].
  unfold Posix.read. rewrite Hf, Z.leb_refl. cbn [negb]. rewrite orb_false_r.
  destruct (Posix.fails w Posix.SysRead src) eqn:Hread; proc_simpl;
    [run_fails f' binData'; congruence |].
  rewrite read_buffer.
  destruct (parseHexString hexS) as [binData | e] eqn:Hparse; proc_simpl;
    [| run_fails f' binData'; congruence].
  assert (secureZero (bytes_of_string hexS) 0 (Z.of_nat (String.length hexS))
          = Some (Spec.zeroed 0 (String.length hexS) (bytes_of_string hexS))) as ->.
  { rewrite <- (bytes_of_string_length hexS). apply secureZero_whole.
    rewrite bytes_of_string_length. unfold Int64.modulus. lia. }
  proc_simpl.
  rewrite apply_patch_spec by (apply strtol_in_signed || lia || done).
  proc_simpl.
  fold (Spec.patched (Posix.strtol posS) binData (Posix.f_data f)).
  assert (Z.of_nat (length binData) < Int64.modulus) as Hbin.
  { rewrite (parseHexString_Return _ _ Hparse), hex_pairs_length.
    pose proof (Nat.Div0.div_le_upper_bound (String.length hexS) 2 1000).
    unfold Int64.modulus. lia. }
  assert (length (Spec.patched (Posix.strtol posS) binData (Posix.f_data f))
          = length (Posix.f_data f)) as Hsame.
  { unfold Spec.patched.
    destruct (Z.leb_spec 0 (Posix.strtol posS)); cbn [andb]; [| done].
    destruct (Z.ltb_spec (Posix.strtol posS) (Z.of_nat (length (Posix.f_data f))));
      [| done].
    apply overwrite_length. lia. }
  assert (take (Z.to_nat (Z.of_nat (length (Posix.f_data f))))
               (Spec.patched (Posix.strtol posS) binData (Posix.f_data f))
          = Spec.patched (Posix.strtol posS) binData (Posix.f_data f)) as Htake.
  { rewrite Nat2Z.id. apply take_ge. lia. }
  rewrite !Htake.
  destruct binData as [| b0 bs] eqn:Hdata; [| rewrite secureZero_whole by done];
    rewrite <- ?Hdata in *; proc_simpl.
  all: unfold Posix.open_write_trunc; proc_simpl.
  all: destruct (Posix.fails w Posix.SysOpenWrite dst) eqn:Hcreate; proc_simpl;
    [run_fails f' binData'; congruence |].
  all: unfold Posix.write; proc_simpl; rewrite lookup_insert_eq.
  all: destruct (Posix.fails w Posix.SysWrite dst) eqn:Hwrite; proc_simpl;
    [run_fails f' binData'; congruence |].
  all: unfold Posix.utimes; proc_simpl; rewrite lookup_insert_eq.
  all: destruct (Posix.fails w Posix.SysUtimes dst) eqn:Hutimes; proc_simpl;
    [run_fails f' binData'; congruence |].
  all: eexists 0, _; split; [reflexivity |]; left; split; [done |].
  all: exists f, binData.
  all: split; [split; [lia | done] |].
  all: split; [cbn [os Posix.files]; apply lookup_insert_eq | reflexivity].
Qed.

Lemma run_succeeds (prog posS hexS src dst : string) (w : Posix.world)
    (f : Posix.file) (binData : list Z) :
  run_goes_through w hexS src dst f binData ->
  exists s',
    run (Spec.command_line prog posS hexS src dst) w = (Val 0, s')
    /\ Posix.files (os s') !! dst =
         Some (Posix.File
                 (Spec.patched (Posix.strtol posS) binData (Posix.f_data f))
                 (utimes_stamp (Posix.f_atime f))
                 (utimes_stamp (Posix.f_mtime f)))
    /\ trace s' =
         success_trace src dst f
           (Spec.patched (Posix.strtol posS) binData (Posix.f_data f)).
Proof.
  intros Hgo.
  destruct (run_char prog posS hexS src dst w) as (code & s' & Hrun & Hcases).
  destruct Hcases as [(-> & f' & binData' & Hgo' & Hdst & Htrace) | (_ & Hno)].
  - exists s'. split; [done |].
    destruct Hgo as (_ & (Hf & _) & Hparse), Hgo' as (_ & (Hf' & _) & Hparse').
    rewrite Hf in Hf'. injection Hf' as <-.
    rewrite Hparse in Hparse'. injection Hparse' as <-.
    by split.
  - destruct Hno. eauto.
Qed.

(** ** The patch inside the file *)

Lemma overwrite_lookup_payload (offset i : nat) (payload buffer : list Z) :
  (i < length payload)%nat ->
  (offset + i < length buffer)%nat ->
  Spec.overwrite offset payload buffer !! (offset + i)%nat = payload !! i.
Proof.
  intros Hi Hin. unfold Spec.overwrite.
  rewrite lookup_app_r by (rewrite length_take; lia).
  rewrite length_take, Nat.min_l by lia.
  replace (offset + i - offset)%nat with i by lia.
  rewrite lookup_app_l by (rewrite length_take; lia).
  apply lookup_take_lt. lia.
Qed.

Lemma overwrite_lookup_outside (offset j : nat) (payload buffer : list Z) :
  (offset <= length buffer)%nat ->
  (j < offset \/ offset + length payload <= j)%nat ->
  Spec.overwrite offset payload buffer !! j = buffer !! j.
Proof.
  intros Hoff Hj.
  destruct (decide (j < length buffer)%nat) as [Hin | Hout].
  - unfold Spec.overwrite. destruct Hj as [Hlt | Hge].
    + rewrite lookup_app_l by (rewrite length_take; lia).
      by apply lookup_take_lt.
    + rewrite lookup_app_r by (rewrite length_take; lia).
      rewrite length_take, Nat.min_l by lia.
      rewrite take_ge by lia.
      rewrite lookup_app_r by lia.
      rewrite lookup_drop. f_equal. lia.
  - rewrite (lookup_ge_None_2 buffer) by lia.
    apply lookup_ge_None_2. rewrite overwrite_length; lia.
Qed.

(** C1. For every source file [f] and every decoded payload [binData],
    when the offset is inside the file the run copies payload byte [i]
    to position [offset + i] for every [i] with [offset + i] below the
    size of the file, stores to these positions only, one after the
    other up to the end of the file at most, and writes a destination
    of exactly the size of the source: the rest of the payload is
    dropped. *)
Theorem C1_patch_within_file (prog posS hexS src dst : string) (w : Posix.world)
    (f : Posix.file) (binData : list Z) :
  let offset := Posix.strtol posS in
  let fileSize := Z.of_nat (length (Posix.f_data f)) in
  run_goes_through w hexS src dst f binData ->
  0 <= offset -> offset < fileSize ->
  exists s' g,
    run (Spec.command_line prog posS hexS src dst) w = (Val 0, s')
    /\ Posix.files (os s') !! dst = Some g
    /\ Z.of_nat (length (Posix.f_data g)) = fileSize
    /\ (forall i : nat,
          (i < length binData)%nat -> offset + Z.of_nat i < fileSize ->
          Posix.f_data g !! (Z.to_nat offset + i)%nat = binData !! i)
    /\ (forall j : nat,
          Z.of_nat j < offset \/ offset + Z.of_nat (length binData) <= Z.of_nat j ->
          Posix.f_data g !! j = Posix.f_data f !! j)
    /\ apply_patch offset fileSize binData (Posix.f_data f) =
         Some (Posix.f_data g,
               seqZ offset (Z.min (Z.of_nat (length binData)) (fileSize - offset))).
Proof.
  intros offset fileSize Hgo Hlo Hhi.
  destruct (run_succeeds prog posS hexS src dst w f binData Hgo)
    as (s' & Hrun & Hdst & _).
  destruct Hgo as (_ & (_ & Hsize & _) & _).
  eexists s', _. split; [done |]. split; [exact Hdst |].
  cbn [Posix.f_data]. unfold Spec.patched. fold offset fileSize.
  destruct (Z.leb_spec 0 offset); [| lia].
  destruct (Z.ltb_spec offset fileSize); [| lia]. cbn [andb].
  split; [| split; [| split]].
  - rewrite overwrite_length; [done | lia].
  - intros i Hi Hin. apply overwrite_lookup_payload; lia.
  - intros j Hj. apply overwrite_lookup_outside; lia.
  - rewrite apply_patch_spec by (apply strtol_in_signed || lia || done).
    destruct (Z.leb_spec 0 offset); [| lia].
    destruct (Z.ltb_spec offset fileSize); [| lia]. done.
Qed.

Lemma demo_goes_through (hexS : string) (binData : list Z) :
  (String.length hexS <= 1000)%nat ->
  parseHexString hexS = Return binData ->
  run_goes_through demo_world hexS "in.bin" "out.bin" demo_file binData.
Proof.
  intros Hlen Hparse. split; [done |]. split; [| done].
  unfold Spec.io_ok. split; [by vm_compute |].
  split; [by vm_compute |]. by repeat split.
Qed.

Lemma C1_patch_within_file_witness :
  exists s' g,
    run (Spec.command_line "hexedit" "3" "AABB" "in.bin" "out.bin") demo_world
      = (Val 0, s')
    /\ Posix.files (os s') !! "out.bin" = Some g
    /\ Z.of_nat (length (Posix.f_data g)) = 4
    /\ apply_patch 3 4 [170; 187] [1; 2; 3; 4] = Some (Posix.f_data g, [3]).
Proof.
  destruct (C1_patch_within_file "hexedit" "3" "AABB" "in.bin" "out.bin"
              demo_world demo_file [170; 187])
    as (s' & g & Hrun & Hdst & Hlen & _ & _ & Hpatch).
  - apply demo_goes_through; [simpl; lia | reflexivity].
  - by vm_compute.
  - by vm_compute.
  - exists s', g. repeat split; assumption.
Defined.

(** The two examples of the specification. *)
Example patch_FF_at_0 :
  let w := Posix.World {[ "in.bin" := Posix.File [0; 0; 0; 0] Posix.zero_time Posix.zero_time ]}
                       Posix.zero_time (fun _ _ => false) in
  let r := run (Spec.command_line "hexedit" "0" "FF" "in.bin" "out.bin") w in
  r.1 = Val 0
  /\ Posix.f_data <$> Posix.files (os r.2) !! "out.bin" = Some [255; 0; 0; 0].
Proof. by vm_compute. Qed.

Example patch_AABB_at_3 :
  let r := run (Spec.command_line "hexedit" "3" "AABB" "in.bin" "out.bin") demo_world in
  r.1 = Val 0
  /\ Posix.f_data <$> Posix.files (os r.2) !! "out.bin" = Some [1; 2; 3; 170].
Proof. by vm_compute. Qed.

(** C2. For every run with a well-formed payload whose calls on the
    files succeed, when the offset is negative or not below the size of
    the file, the loop stores nothing, the run returns 0, and the
    destination holds the bytes of the source. *)
Theorem C2_offset_outside_file (prog posS hexS src dst : string) (w : Posix.world)
    (f : Posix.file) (binData : list Z) :
  let offset := Posix.strtol posS in
  let fileSize := Z.of_nat (length (Posix.f_data f)) in
  run_goes_through w hexS src dst f binData ->
  offset < 0 \/ fileSize <= offset ->
  exists s' g,
    run (Spec.command_line prog posS hexS src dst) w = (Val 0, s')
    /\ Posix.files (os s') !! dst = Some g
    /\ Posix.f_data g = Posix.f_data f
    /\ apply_patch offset fileSize binData (Posix.f_data f) = Some (Posix.f_data f, []).
Proof.
  intros offset fileSize Hgo Hout.
  destruct (run_succeeds prog posS hexS src dst w f binData Hgo)
    as (s' & Hrun & Hdst & _).
  destruct Hgo as (_ & (_ & Hsize & _) & _).
  assert ((0 <=? offset) && (offset <? fileSize) = false) as Hguard.
  { destruct (Z.leb_spec 0 offset); cbn [andb]; [| done].
    destruct (Z.ltb_spec offset fileSize); [lia | done]. }
  eexists s', _. split; [done |]. split; [exact Hdst |].
  cbn [Posix.f_data]. unfold Spec.patched. fold offset fileSize. rewrite Hguard.
  split; [done |].
  rewrite apply_patch_spec by (apply strtol_in_signed || lia || done).
  by rewrite Hguard.
Qed.

Lemma C2_offset_outside_file_witness :
  exists s' g,
    run (Spec.command_line "hexedit" "-1" "AABB" "in.bin" "out.bin") demo_world
      = (Val 0, s')
    /\ Posix.files (os s') !! "out.bin" = Some g
    /\ Posix.f_data g = Posix.f_data demo_file
    /\ apply_patch (-1) 4 [170; 187] (Posix.f_data demo_file)
       = Some (Posix.f_data demo_file, []).
Proof.
  apply (C2_offset_outside_file "hexedit" "-1" "AABB" "in.bin" "out.bin"
           demo_world demo_file [170; 187]).
  - apply demo_goes_through; [simpl; lia | reflexivity].
  - left. by vm_compute.
Defined.

Example offset_past_the_end :
  let r := run (Spec.command_line "hexedit" "4" "AABB" "in.bin" "out.bin") demo_world in
  r.1 = Val 0
  /\ Posix.f_data <$> Posix.files (os r.2) !! "out.bin" = Some [1; 2; 3; 4].
Proof. by vm_compute. Qed.

(** ** Time stamps *)

Lemma utimes_stamp_floor (t : Posix.Timespec.t) :
  Spec.valid_time t ->
  Posix.Timespec.tv_sec (utimes_stamp t) = Posix.Timespec.tv_sec t
  /\ Posix.Timespec.tv_nsec (utimes_stamp t)
     = 1000 * (Posix.Timespec.tv_nsec t / 1000).
Proof.
  unfold Spec.valid_time, utimes_stamp, Posix.timespec_of_timeval, to_suseconds.
  destruct t as [sec nsec]. cbn [Posix.Timespec.tv_sec Posix.Timespec.tv_nsec
    Posix.Timeval.tv_sec Posix.Timeval.tv_usec].
  intros Hnsec. split; [done |].
  rewrite Z.quot_div_nonneg by lia.
  assert (0 <= nsec / 1000 < 1000000) by (Z.div_mod_to_equations; lia).
  rewrite Z.mod_small by lia. lia.
Qed.

(** C8. After every successful run, that is every run whose payload
    decodes and whose calls on the two files succeed, the destination
    carries the access and modification times that [stat] read from the
    source before the run touched any file, to the microsecond
    ([utimes] takes no finer unit: the nanoseconds are rounded down to
    a multiple of 1000), and [utimes] is the last call of the run,
    straight after the write of the whole destination. *)
Theorem C8_timestamps_copied (prog posS hexS src dst : string) (w : Posix.world)
    (f : Posix.file) (binData : list Z) :
  run_goes_through w hexS src dst f binData ->
  Spec.valid_time (Posix.f_atime f) ->
  Spec.valid_time (Posix.f_mtime f) ->
  exists s' g,
    run (Spec.command_line prog posS hexS src dst) w = (Val 0, s')
    /\ Posix.files (os s') !! dst = Some g
    /\ Posix.Timespec.tv_sec (Posix.f_atime g) = Posix.Timespec.tv_sec (Posix.f_atime f)
    /\ Posix.Timespec.tv_nsec (Posix.f_atime g)
       = 1000 * (Posix.Timespec.tv_nsec (Posix.f_atime f) / 1000)
    /\ Posix.Timespec.tv_sec (Posix.f_mtime g) = Posix.Timespec.tv_sec (Posix.f_mtime f)
    /\ Posix.Timespec.tv_nsec (Posix.f_mtime g)
       = 1000 * (Posix.Timespec.tv_nsec (Posix.f_mtime f) / 1000)
    /\ Posix.f_data g = Spec.patched (Posix.strtol posS) binData (Posix.f_data f)
    /\ exists before,
         trace s' = before ++ [Posix.EvWrite dst (Posix.f_data g);
                               Posix.EvUtimes dst (utimes_arg f)]
         /\ Forall (fun ev => forall times, ev <> Posix.EvUtimes dst times) before.
Proof.
  intros Hgo Hatime Hmtime.
  destruct (run_succeeds prog posS hexS src dst w f binData Hgo)
    as (s' & Hrun & Hdst & Htrace).
  destruct (utimes_stamp_floor _ Hatime) as [Ha1 Ha2].
  destruct (utimes_stamp_floor _ Hmtime) as [Hm1 Hm2].
  eexists s', _. split; [exact Hrun |]. split; [exact Hdst |].
  cbn [Posix.f_atime Posix.f_mtime Posix.f_data].
  do 5 (split; [done |]).
  exists [Posix.EvStat src; Posix.EvOpenRead src;
          Posix.EvRead src (Z.of_nat (length (Posix.f_data f)));
          Posix.EvOpenWrite dst].
  split; [exact Htrace |].
  repeat (apply Forall_cons; split; [by intros times |]). apply Forall_nil_2.
Qed.

Lemma C8_timestamps_copied_witness :
  exists s' g,
    run (Spec.command_line "hexedit" "3" "AABB" "in.bin" "out.bin") demo_world
      = (Val 0, s')
    /\ Posix.files (os s') !! "out.bin" = Some g
    /\ Posix.f_atime g = Posix.Timespec.make 1700000000 123456000
    /\ Posix.f_mtime g = Posix.Timespec.make 1600000000 987654000
    /\ Posix.f_data g = [1; 2; 3; 170].
Proof.
  destruct (C8_timestamps_copied "hexedit" "3" "AABB" "in.bin" "out.bin" demo_world
              demo_file [170; 187])
    as (s' & g & Hrun & Hdst & Has & Hans & Hms & Hmns & Hdata & _).
  - apply demo_goes_through; [simpl; lia | reflexivity].
  - by vm_compute.
  - by vm_compute.
  - exists s', g. split; [exact Hrun |]. split; [exact Hdst |].
    destruct g as [data [asec ansec] [msec mnsec]].
    cbn in Has, Hans, Hms, Hmns, Hdata. subst.
    split; [reflexivity |]. split; reflexivity.
Defined.

(** ** Refused runs *)

(** C4. Whatever its characters, a payload of more than 1000
    characters is refused: the check of [main] throws
    [std::runtime_error] before [parseHexString] is reached and before
    any file is touched, and the run returns 1 with the message of the
    exception. *)
Theorem C4_long_payload_refused (prog posS hexS src dst : string) (w : Posix.world) :
  (1000 < String.length hexS)%nat ->
  main_try (Spec.command_line prog posS hexS src dst) (start w)
    = (Raise (runtime_error
                "HEX data length exceeds maximum allowed (1000 characters)."),
       start w)
  /\ run (Spec.command_line prog posS hexS src dst) w
     = (Val 1,
        ProcState w ""
          ("Error: HEX data length exceeds maximum allowed (1000 characters)." +:+ nl)
          [] []).
Proof.
  intros Hlong.
  assert (main_try (Spec.command_line prog posS hexS src dst) (start w)
          = (Raise (runtime_error
                      "HEX data length exceeds maximum allowed (1000 characters)."),
             start w)) as Htry.
  { unfold main_try.
    cbn [arg lookup list_lookup default from_option id Spec.command_line].
    proc_simpl.
    destruct (Z.ltb_spec 1000 (Z.of_nat (String.length hexS))); [done | lia]. }
  split; [exact Htry |].
  unfold run. rewrite main_command_line. unfold returning, try_catch.
  by rewrite Htry.
Qed.

Lemma C4_long_payload_refused_witness :
  let hexS := String.concat "" (replicate 501 "00"%string) in
  (run (Spec.command_line "hexedit" "0" hexS "in.bin" "out.bin") demo_world).1 = Val 1.
Proof.
  intros hexS.
  destruct (C4_long_payload_refused "hexedit" "0" hexS "in.bin" "out.bin" demo_world)
    as [_ ->].
  - vm_compute. lia.
  - reflexivity.
Defined.

(** [parseHexString] on its own has no limit: the check is the one of
    [main]. *)
Example parseHexString_1002 :
  parseHexString (String.concat "" (replicate 501 "00"%string))
  = Return (replicate 501 0).
Proof. by vm_compute. Qed.

(** C7. When the arguments are not four pairs of a flag and a value,
    or the flags are not [-pos], [-w], [-r], [-o] in this order, the
    run returns 1 without a single system call: no file is read and no
    destination is written. *)
Theorem C7_bad_arguments_refused (prog : string) (args : list string)
    (w : Posix.world) :
  ~ Spec.well_formed_args args ->
  exists s',
    run (prog :: args) w = (Val 1, s')
    /\ trace s' = []
    /\ os s' = w
    /\ cout s' = "".
Proof.
  intros Hbad. unfold run, main, main_body. proc_simpl.
  destruct (Z.eqb_spec (argc (prog :: args)) 9) as [Hcount | Hcount];
    cbn [negb]; proc_simpl.
  - unfold argc in Hcount.
    destruct args as [| f1 [| v1 [| f2 [| v2 [| f3 [| v3 [| f4 [| v4 [| ? ?]]]]]]]]];
      try (cbn [length] in Hcount; lia).
    cbn [arg lookup list_lookup default from_option id].
    destruct (String.eqb_spec f1 "-pos") as [-> | H1]; cbn [negb orb]; proc_simpl;
      [| by eexists].
    destruct (String.eqb_spec f2 "-w") as [-> | H2]; cbn [negb orb]; proc_simpl;
      [| by eexists].
    destruct (String.eqb_spec f3 "-r") as [-> | H3]; cbn [negb orb]; proc_simpl;
      [| by eexists].
    destruct (String.eqb_spec f4 "-o") as [-> | H4]; cbn [negb orb]; proc_simpl;
      [| by eexists].
    destruct Hbad. by repeat split.
  - by eexists.
Qed.

Lemma C7_bad_arguments_refused_witness :
  exists s',
    run ["hexedit"; "-w"; "FF"; "-pos"; "0"; "-r"; "in.bin"; "-o"; "out.bin"]
        demo_world = (Val 1, s')
    /\ trace s' = []
    /\ os s' = demo_world
    /\ cout s' = "".
Proof.
  apply (C7_bad_arguments_refused "hexedit"
           ["-w"; "FF"; "-pos"; "0"; "-r"; "in.bin"; "-o"; "out.bin"] demo_world).
  intros (_ & Hpos & _). discriminate Hpos.
Defined.

(** ** The offset argument *)

Lemma is_space_isspace (c : ascii) : Spec.is_space c = Posix.isspace c.
Proof. each_char c; reflexivity. Qed.

Lemma is_decimal_digit_isdigit (c : ascii) : Spec.is_decimal_digit c = Posix.isdigit c.
Proof. each_char c; reflexivity. Qed.

Lemma drop_spaces_skip_space (s : string) : Spec.drop_spaces s = Posix.skip_space s.
Proof.
  induction s as [| c s IH]; [done |].
  cbn [Spec.drop_spaces Posix.skip_space]. rewrite is_space_isspace.
  by destruct (Posix.isspace c).
Qed.

Lemma read_digits_no_digit (s : string) :
  Spec.starts_with_digit s = false -> Posix.read_digits s None = None.
Proof.
  destruct s as [| c s]; [done |].
  cbn [Spec.starts_with_digit Posix.read_digits].
  rewrite is_decimal_digit_isdigit. by intros ->.
Qed.

(** With no number at its head the argument converts to 0. *)
Lemma strtol_no_number (nptr : string) :
  Spec.has_leading_number nptr = false -> Posix.strtol nptr = 0.
Proof.
  unfold Spec.has_leading_number, Posix.strtol.
  rewrite drop_spaces_skip_space.
  destruct (Posix.skip_space nptr) as [| c rest]; [done |].
  destruct (Spec.is_sign c) eqn:Hsign.
  - intros Hrest.
    assert (c = "-"%char \/ c = "+"%char) as [-> | ->]
      by (revert Hsign; each_char c; intros [=]; auto).
    all: by rewrite (read_digits_no_digit _ Hrest).
  - intros Hdigit.
    assert (Posix.read_digits (String c rest) None = None) as Hnone.
    { apply read_digits_no_digit. exact Hdigit. }
    revert Hsign Hnone. each_char c; intros [=] ->; reflexivity.
Qed.

(** [main] looks at the offset argument through [strtol] only. *)
Lemma run_offset_through_strtol (prog posS posS' hexS src dst : string)
    (w : Posix.world) :
  Posix.strtol posS = Posix.strtol posS' ->
  run (Spec.command_line prog posS hexS src dst) w
  = run (Spec.command_line prog posS' hexS src dst) w.
Proof.
  intros Heq. unfold run. rewrite !main_command_line. unfold main_try.
  cbn [arg lookup list_lookup default from_option id Spec.command_line].
  by rewrite Heq.
Qed.

(** C6, as stated, fails: [1x] is no base-10 integer, and yet the
    offset is 1, not 0; the payload lands on the second byte of the
    file. *)
Lemma C6_counterexample_1x :
  Spec.is_decimal_integer "1x" = false
  /\ Posix.strtol "1x" = 1
  /\ (let r := run (Spec.command_line "hexedit" "1x" "AABB" "in.bin" "out.bin")
                   demo_world in
      r.1 = Val 0
      /\ Posix.f_data <$> Posix.files (os r.2) !! "out.bin" = Some [1; 170; 187; 4])
  /\ (let r := run (Spec.command_line "hexedit" "0" "AABB" "in.bin" "out.bin")
                   demo_world in
      r.1 = Val 0
      /\ Posix.f_data <$> Posix.files (os r.2) !! "out.bin" = Some [170; 187; 3; 4]).
Proof. by vm_compute. Qed.

(** C6, amended. When the [-pos] argument has no number at its head
    (after white space and an optional sign no decimal digit follows),
    the run is no usage error: both checks of the arguments pass, and
    the run is the run of [-pos 0], so that a valid payload goes to
    byte 0 of a source that is not empty. *)
Theorem C6_no_number_is_offset_zero (prog posS hexS src dst : string)
    (w : Posix.world) :
  Spec.has_leading_number posS = false ->
  Posix.strtol posS = 0
  /\ run (Spec.command_line prog posS hexS src dst) w
     = returning (try_catch (main_try (Spec.command_line prog posS hexS src dst))
                            main_catch) (start w)
  /\ run (Spec.command_line prog posS hexS src dst) w
     = run (Spec.command_line prog "0" hexS src dst) w
  /\ forall f binData,
       run_goes_through w hexS src dst f binData ->
       Posix.f_data f <> [] ->
       exists s' g,
         run (Spec.command_line prog posS hexS src dst) w = (Val 0, s')
         /\ Posix.files (os s') !! dst = Some g
         /\ Posix.f_data g = Spec.overwrite 0 binData (Posix.f_data f).
Proof.
  intros Hnone. pose proof (strtol_no_number _ Hnone) as Hzero.
  split; [exact Hzero |]. split; [apply main_command_line |].
  split; [by apply run_offset_through_strtol |].
  intros f binData Hgo Hdata.
  destruct (run_succeeds prog posS hexS src dst w f binData Hgo)
    as (s' & Hrun & Hdst & _).
  eexists s', _. split; [done |]. split; [exact Hdst |].
  cbn [Posix.f_data]. rewrite Hzero. unfold Spec.patched.
  destruct (Posix.f_data f) as [| b data]; [done |].
  destruct (Z.ltb_spec 0 (Z.of_nat (length (b :: data))));
    [done | cbn [length] in *; lia].
Qed.

Lemma C6_no_number_is_offset_zero_witness :
  Posix.strtol "abc" = 0
  /\ exists s' g,
       run (Spec.command_line "hexedit" "abc" "AABB" "in.bin" "out.bin") demo_world
         = (Val 0, s')
       /\ Posix.files (os s') !! "out.bin" = Some g
       /\ Posix.f_data g = Spec.overwrite 0 [170; 187] (Posix.f_data demo_file).
Proof.
  destruct (C6_no_number_is_offset_zero "hexedit" "abc" "AABB" "in.bin" "out.bin"
              demo_world) as (Hzero & _ & _ & Hpatch).
  - reflexivity.
  - split; [exact Hzero |].
    apply (Hpatch demo_file [170; 187]).
    + apply demo_goes_through; [simpl; lia | reflexivity].
    + discriminate.
Defined.

(** ** No run leaves its buffers *)

(** Every run with a well-formed command line returns 0 or 1: the
    stores of [secureZero] and of the patch loop are inside their
    buffers in every run. *)
Lemma run_defined (prog posS hexS src dst : string) (w : Posix.world) :
  exists code s',
    run (Spec.command_line prog posS hexS src dst) w = (Val code, s')
    /\ (code = 0 \/ code = 1).
Proof.
  destruct (run_char prog posS hexS src dst w) as (code & s' & Hrun & Hcases).
  exists code, s'. split; [done |]. destruct Hcases as [[-> _] | [-> _]]; auto.
Qed.

(** * Further properties of the code *)

(** ** More on [parseHexString] *)

Lemma first_non_hex_loop (s : string) (c : ascii) :
  forall acc,
    first_non_hex s = Some c ->
    parseHexString_loop s acc
    = Throw (runtime_error ("Invalid hex character: " +:+ String c EmptyString)).
Proof.
  induction s as [| c0 | c0 c1 rest IH] using string_pair_ind; intros acc Hfirst.
  - discriminate.
  - cbn [first_non_hex] in Hfirst. unfold Spec.is_hex_digit in Hfirst.
    cbn [parseHexString_loop]. rewrite (hexVal_spec c0).
    destruct (Spec.hex_digit_value c0); [discriminate |].
    by injection Hfirst as <-.
  - cbn [first_non_hex] in Hfirst. unfold Spec.is_hex_digit in Hfirst.
    cbn [parseHexString_loop]. rewrite !hexVal_spec.
    destruct (Spec.hex_digit_value c0); cbn [mbind result_bind];
      [| by injection Hfirst as <-].
    destruct (Spec.hex_digit_value c1); cbn [mbind result_bind];
      [| by injection Hfirst as <-].
    by apply IH.
Qed.

Lemma c_str_cons (c : ascii) (s : string) :
  c <> "000"%char -> c_str (String c s) = String c (c_str s).
Proof. intros Hc. cbn [c_str]. by destruct (Ascii.eqb_spec c "000"). Qed.

Lemma c_str_append (a b : string) :
  c_str a = a -> c_str (a +:+ b) = a +:+ c_str b.
Proof.
  induction a as [| x a IH]; [done |].
  change (String x a +:+ b) with (String x (a +:+ b)).
  cbn [c_str]. destruct (Ascii.eqb_spec x "000"); [done |].
  intros [= Ha]. by rewrite IH.
Qed.

(** X1. The message of the format error: an odd length is reported
    first, whatever the characters are; with an even length the message
    names the first character of the string that is no hex digit (a
    character other than NUL, which would end the message). *)
Theorem parseHexString_error_message (hexStr : string) :
  (Nat.Odd (String.length hexStr) ->
   exists ex,
     parseHexString hexStr = Throw ex
     /\ what ex = "Hex string length is odd.")
  /\ (Nat.Even (String.length hexStr) ->
      forall c, first_non_hex hexStr = Some c -> c <> "000"%char ->
        exists ex,
          parseHexString hexStr = Throw ex
          /\ what ex = "Invalid hex character: " +:+ String c EmptyString).
Proof.
  unfold parseHexString. rewrite length_parity. split.
  - intros Hodd. apply Nat.odd_spec in Hodd. rewrite Hodd. by eexists.
  - intros Heven c Hfirst Hc. apply Nat.even_spec in Heven.
    rewrite <- Nat.negb_even, Heven. cbn [negb].
    rewrite (first_non_hex_loop _ _ _ Hfirst). eexists. split; [done |].
    cbn [what]. rewrite c_str_append by reflexivity.
    by rewrite c_str_cons.
Qed.

Lemma parseHexString_error_message_witness :
  (exists ex, parseHexString "G1x" = Throw ex /\ what ex = "Hex string length is odd.")
  /\ (exists ex, parseHexString "12x4G6" = Throw ex
                 /\ what ex = "Invalid hex character: " +:+ String "x" EmptyString).
Proof.
  split.
  - apply (parseHexString_error_message "G1x"). exists 1%nat. reflexivity.
  - apply (parseHexString_error_message "12x4G6");
      [exists 3%nat; reflexivity | reflexivity | discriminate].
Defined.

Lemma digit_value_any_case (c : ascii) (v : Z) :
  Spec.hex_digit_value c = Some v ->
  Spec.hex_digit_value (Spec.to_lower c) = Some v
  /\ Spec.hex_digit_value (to_upper c) = Some v.
Proof. each_char c; simpl; intros [= <-] || discriminate; done. Qed.

Lemma string_map_length (f : ascii -> ascii) (s : string) :
  String.length (Spec.string_map f s) = String.length s.
Proof. induction s as [| c s IH]; [done |]. cbn. by rewrite IH. Qed.

Lemma parseHexString_Return_iff (hexStr : string) (bytes : list Z) :
  parseHexString hexStr = Return bytes <->
  Nat.odd (String.length hexStr) = false
  /\ Spec.all_hex hexStr = true
  /\ bytes = Spec.hex_pairs hexStr.
Proof.
  pose proof (parseHexString_cases hexStr) as Hcases.
  destruct (Nat.odd (String.length hexStr)).
  { split; [congruence | by intros [? _]]. }
  destruct (Spec.all_hex hexStr).
  - rewrite Hcases. split; [by intros [= <-] | by intros (_ & _ & ->)].
  - destruct Hcases as [msg ->]. split; [done | by intros (_ & ? & _)].
Qed.

Lemma hex_pairs_any_case (f : ascii -> ascii) (s : string) :
  (forall c v, Spec.hex_digit_value c = Some v -> Spec.hex_digit_value (f c) = Some v) ->
  Spec.all_hex s = true ->
  Spec.all_hex (Spec.string_map f s) = true
  /\ Spec.hex_pairs (Spec.string_map f s) = Spec.hex_pairs s.
Proof.
  intros Hf.
  induction s as [| c | c0 c1 rest IH] using string_pair_ind; intros Hhex.
  - done.
  - cbn in Hhex |- *. unfold Spec.is_hex_digit in *.
    destruct (Spec.hex_digit_value c) eqn:E; [| done].
    by rewrite (Hf _ _ E).
  - cbn [Spec.all_hex] in Hhex. unfold Spec.is_hex_digit in Hhex.
    destruct (Spec.hex_digit_value c0) as [hi |] eqn:E0; [| done].
    destruct (Spec.hex_digit_value c1) as [lo |] eqn:E1; [| done].
    destruct (IH Hhex) as [IHa IHp].
    cbn [Spec.string_map Spec.all_hex]. unfold Spec.is_hex_digit.
    rewrite (hex_pairs_cons _ _ _ _ _ (Hf _ _ E0) (Hf _ _ E1)).
    rewrite (hex_pairs_cons _ _ _ _ _ E0 E1).
    rewrite (Hf _ _ E0), (Hf _ _ E1), IHp. by split.
Qed.

(** X2. Decoding does not look at the case of the letters: a string
    that decodes gives the same bytes with all its letters in lower
    case, and with all of them in upper case. *)
Theorem parseHexString_ignores_case (hexStr : string) (bytes : list Z) :
  parseHexString hexStr = Return bytes ->
  parseHexString (Spec.string_map Spec.to_lower hexStr) = Return bytes
  /\ parseHexString (Spec.string_map to_upper hexStr) = Return bytes.
Proof.
  intros (Hodd & Hhex & ->)%parseHexString_Return_iff.
  split; apply parseHexString_Return_iff; rewrite string_map_length.
  - destruct (hex_pairs_any_case Spec.to_lower hexStr) as [Ha Hp]; [| done |].
    { intros c v Hc. by apply digit_value_any_case. }
    by rewrite Hp.
  - destruct (hex_pairs_any_case to_upper hexStr) as [Ha Hp]; [| done |].
    { intros c v Hc. by apply digit_value_any_case. }
    by rewrite Hp.
Qed.

Lemma parseHexString_ignores_case_witness :
  parseHexString (Spec.string_map Spec.to_lower "c0FFee") = Return [192; 255; 238]
  /\ parseHexString (Spec.string_map to_upper "c0FFee") = Return [192; 255; 238].
Proof. apply (parseHexString_ignores_case "c0FFee"). reflexivity. Defined.

Lemma append_length (a b : string) :
  String.length (a +:+ b) = (String.length a + String.length b)%nat.
Proof.
  induction a as [| c a IH]; [done |].
  change (String c a +:+ b) with (String c (a +:+ b)).
  cbn [String.length]. by rewrite IH.
Qed.

Lemma all_hex_append (a b : string) :
  Spec.all_hex (a +:+ b) = Spec.all_hex a && Spec.all_hex b.
Proof.
  induction a as [| c a IH]; [done |].
  change (String c a +:+ b) with (String c (a +:+ b)).
  cbn [Spec.all_hex]. rewrite IH. by rewrite andb_assoc.
Qed.

Lemma hex_pairs_append (a b : string) :
  Nat.odd (String.length a) = false ->
  Spec.hex_pairs (a +:+ b) = Spec.hex_pairs a ++ Spec.hex_pairs b.
Proof.
  induction a as [| c | c0 c1 rest IH] using string_pair_ind; intros Heven.
  - done.
  - discriminate.
  - change (String c0 (String c1 rest) +:+ b)
      with (String c0 (String c1 (rest +:+ b))).
    cbn [Spec.hex_pairs]. by rewrite IH.
Qed.

(** X3. Decoding goes pair by pair: when two strings decode, their
    concatenation decodes to the bytes of the first followed by the
    bytes of the second. *)
Theorem parseHexString_append (a b : string) (x y : list Z) :
  parseHexString a = Return x ->
  parseHexString b = Return y ->
  parseHexString (a +:+ b) = Return (x ++ y).
Proof.
  intros (Hodd_a & Hhex_a & ->)%parseHexString_Return_iff
         (Hodd_b & Hhex_b & ->)%parseHexString_Return_iff.
  apply parseHexString_Return_iff.
  rewrite append_length, Nat.odd_add, Hodd_a, Hodd_b.
  rewrite all_hex_append, Hhex_a, Hhex_b.
  by rewrite hex_pairs_append.
Qed.

Lemma parseHexString_append_witness :
  parseHexString ("AABB" +:+ "0c") = Return ([170; 187] ++ [12]).
Proof. apply (parseHexString_append "AABB" "0c"); reflexivity. Defined.

Lemma digit_of_value (v : Z) :
  0 <= v < 16 ->
  Spec.hex_digit_value (Spec.upper_digit v) = Some v
  /\ Spec.hex_digit_value (Spec.lower_digit v) = Some v.
Proof.
  intros Hv. rewrite <- (Z2Nat.id v) by lia.
  assert (Z.to_nat v < 16)%nat as Hn by lia. revert Hn.
  generalize (Z.to_nat v). intros n Hn.
  do 16 (destruct n as [| n]; [by split |]). lia.
Qed.

Lemma hex_encode_decodes (digit : Z -> ascii) (bytes : list Z) :
  (forall v, 0 <= v < 16 -> Spec.hex_digit_value (digit v) = Some v) ->
  Forall (fun b => 0 <= b < 256) bytes ->
  Nat.odd (String.length (Spec.hex_encode digit bytes)) = false
  /\ Spec.all_hex (Spec.hex_encode digit bytes) = true
  /\ Spec.hex_pairs (Spec.hex_encode digit bytes) = bytes.
Proof.
  intros Hdigit. induction 1 as [| b bytes Hb _ (IHo & IHa & IHp)]; [done |].
  assert (0 <= b / 16 < 16 /\ 0 <= b mod 16 < 16) as [Hhi Hlo]
    by (Z.div_mod_to_equations; lia).
  rewrite hex_encode_cons.
  rewrite (hex_pairs_cons _ _ _ _ _ (Hdigit _ Hhi) (Hdigit _ Hlo)).
  cbn [String.length Nat.odd Spec.all_hex]. unfold Spec.is_hex_digit.
  rewrite (Hdigit _ Hhi), (Hdigit _ Hlo), IHp.
  split; [done |]. split; [done |]. f_equal. Z.div_mod_to_equations. lia.
Qed.

(** X4. Every sequence of bytes is the decoding of its rendering in
    hex digits, in upper case as in lower case: encoding, then
    decoding, gives the bytes back. *)
Theorem parseHexString_of_hex_encode (bytes : list Z) :
  Forall (fun b => 0 <= b < 256) bytes ->
  parseHexString (Spec.hex_encode Spec.upper_digit bytes) = Return bytes
  /\ parseHexString (Spec.hex_encode Spec.lower_digit bytes) = Return bytes.
Proof.
  intros Hbytes.
  split; apply parseHexString_Return_iff.
  - destruct (hex_encode_decodes Spec.upper_digit bytes) as (? & ? & ?); [| done |].
    { intros v Hv. by apply digit_of_value. }
    done.
  - destruct (hex_encode_decodes Spec.lower_digit bytes) as (? & ? & ?); [| done |].
    { intros v Hv. by apply digit_of_value. }
    done.
Qed.

Lemma parseHexString_of_hex_encode_witness :
  parseHexString (Spec.hex_encode Spec.upper_digit [0; 127; 255]) = Return [0; 127; 255]
  /\ parseHexString (Spec.hex_encode Spec.lower_digit [0; 127; 255]) = Return [0; 127; 255].
Proof.
  apply (parseHexString_of_hex_encode [0; 127; 255]).
  repeat (apply Forall_cons; split; [lia |]). apply Forall_nil_2.
Defined.

(** ** More on [secureZero] *)

Lemma store_outside (mem : list Z) (p v : Z) :
  p < 0 \/ Z.of_nat (length mem) <= p -> store mem p v = None.
Proof.
  intros Hout. unfold store.
  destruct (Z.leb_spec 0 p); cbn [andb]; [| done].
  destruct (Z.ltb_spec p (Z.of_nat (length mem))); [lia | done].
Qed.

Lemma secureZero_loop_outside (rounds : nat) :
  forall (mem : list Z) (p : Z),
    (0 < rounds)%nat ->
    p < 0 \/ Z.of_nat (length mem) < p + Z.of_nat rounds ->
    secureZero_loop rounds mem p = None.
Proof.
  induction rounds as [| rounds IH]; intros mem p Hpos Hout; [lia |].
  cbn [secureZero_loop].
  destruct (decide (p < 0 \/ Z.of_nat (length mem) <= p)) as [Hfirst | Hin].
  - by rewrite store_outside.
  - replace p with (Z.of_nat (Z.to_nat p)) at 1 by lia.
    rewrite store_in_bounds by lia. cbn [mbind option_bind].
    apply IH; [lia |]. rewrite length_insert. lia.
Qed.

(** X6. [secureZero] needs the whole range inside the buffer, and
    nothing else: with a length of 0 it leaves the memory as it is,
    wherever the pointer points; with a positive length it stays inside
    the buffer exactly when the [len] bytes from [ptr] on are in it. *)
Theorem secureZero_defined_iff (mem : list Z) (ptr len : Z) :
  Int64.in_unsigned len ->
  (len = 0 -> secureZero mem ptr len = Some mem)
  /\ (is_Some (secureZero mem ptr len) <->
      len = 0 \/ (0 <= ptr /\ ptr + len <= Z.of_nat (length mem))).
Proof.
  intros Hlen. pose proof Hlen as [Hlen0 _].
  unfold secureZero. rewrite wrap_unsigned_id by done.
  split; [by intros -> |].
  destruct (decide (len = 0)) as [-> | Hne].
  { split; [by left | by intros _]. }
  destruct (decide (0 <= ptr /\ ptr + len <= Z.of_nat (length mem))) as [Hfit | Hout].
  - split; [by right | intros _].
    replace ptr with (Z.of_nat (Z.to_nat ptr)) by lia.
    rewrite secureZero_loop_zeroed by lia. done.
  - rewrite secureZero_loop_outside by lia.
    split; [by intros [? ?] | intros [? | ?]; done].
Qed.

Lemma secureZero_defined_iff_witness :
  secureZero [1; 2] 7 0 = Some [1; 2]
  /\ (is_Some (secureZero [1; 2] 1 2) <->
      2 = 0 \/ (0 <= 1 /\ 1 + 2 <= Z.of_nat (length [1; 2]))).
Proof.
  split.
  - apply (secureZero_defined_iff [1; 2] 7 0); [| reflexivity].
    unfold Int64.in_unsigned, Int64.modulus. lia.
  - apply (secureZero_defined_iff [1; 2] 1 2).
    unfold Int64.in_unsigned, Int64.modulus. lia.
Defined.

(** ** Every path through [main] *)

Lemma patched_length (pos : Z) (payload data : list Z) :
  length (Spec.patched pos payload data) = length data.
Proof.
  unfold Spec.patched.
  destruct (Z.leb_spec 0 pos); cbn [andb]; [| done].
  destruct (Z.ltb_spec pos (Z.of_nat (length data))); [| done].
  apply overwrite_length. lia.
Qed.

(** The run of a well-formed command line, one goal for each way out
    of [main]: the too long payload, the four failures on the source
    (no file, [stat], open, read), the payload that does not decode,
    and, for an empty and for a non-empty payload, the failures to
    create, to write and to stamp the destination, and the success. *)
Ltac rewrite_src_file w src :=
  lazymatch goal with
  | H : Posix.files w !! src = Some _ |- _ => rewrite H
  end.

Ltac run_paths w hexS src dst :=
  unfold run; rewrite ?main_command_line; unfold main_try;
  cbn [arg lookup list_lookup default from_option id Spec.command_line];
  proc_simpl;
  destruct (Z.ltb_spec 1000 (Z.of_nat (String.length hexS))) as [Hlong | Hlen];
  proc_simpl;
  [ | unfold Posix.stat;
      destruct (Posix.files w !! src) as [f |] eqn:Hf; proc_simpl;
      [ destruct (Posix.fails w Posix.SysStat src) eqn:Hstat; cbn [orb]; proc_simpl;
        [ | destruct (Z.leb_spec (Z.of_nat (length (Posix.f_data f))) Int64.max_signed)
              as [Hsize | Hsize]; proc_simpl;
            [ unfold Posix.open_read; rewrite_src_file w src;
              destruct (Posix.fails w Posix.SysOpenRead src) eqn:Hopen; proc_simpl;
              [ | unfold Posix.read; rewrite_src_file w src; rewrite Z.leb_refl;
                  cbn [negb];
                  rewrite orb_false_r;
                  destruct (Posix.fails w Posix.SysRead src) eqn:Hread; proc_simpl;
                  [ | rewrite read_buffer;
                      destruct (parseHexString hexS) as [binData | ex] eqn:Hparse;
                      proc_simpl;
                      [ run_paths_tail w hexS src dst f binData | ] ] ]
            | ] ]
      | ] ]
with run_paths_tail w hexS src dst f binData :=
  let posS := lazymatch goal with |- context [Posix.strtol ?p] => p end in
  assert (secureZero (bytes_of_string hexS) 0 (Z.of_nat (String.length hexS))
          = Some (Spec.zeroed 0 (String.length hexS) (bytes_of_string hexS))) as ->
    by (rewrite <- (bytes_of_string_length hexS); apply secureZero_whole;
        rewrite bytes_of_string_length; unfold Int64.modulus; lia);
  proc_simpl;
  rewrite apply_patch_spec by (apply strtol_in_signed || lia || done);
  proc_simpl;
  fold (Spec.patched (Posix.strtol posS) binData (Posix.f_data f));
  assert (Z.of_nat (length binData) < Int64.modulus) as Hbin
    by (lazymatch goal with
        | H : parseHexString hexS = Return _ |- _ =>
            rewrite (parseHexString_Return _ _ H), hex_pairs_length
        end;
        pose proof (Nat.Div0.div_le_upper_bound (String.length hexS) 2 1000);
        unfold Int64.modulus; lia);
  assert (take (Z.to_nat (Z.of_nat (length (Posix.f_data f))))
               (Spec.patched (Posix.strtol posS) binData (Posix.f_data f))
          = Spec.patched (Posix.strtol posS) binData (Posix.f_data f)) as Htake
    by (rewrite Nat2Z.id; apply take_ge; rewrite patched_length; lia);
  rewrite !Htake;
  destruct binData as [| b0 bs] eqn:Hdata; [| rewrite secureZero_whole by done];
  rewrite <- ?Hdata in *; proc_simpl;
  unfold Posix.open_write_trunc; proc_simpl;
  (destruct (Posix.fails w Posix.SysOpenWrite dst) eqn:Hcreate; proc_simpl;
   [ | unfold Posix.write; proc_simpl; rewrite lookup_insert_eq;
       destruct (Posix.fails w Posix.SysWrite dst) eqn:Hwrite; proc_simpl;
       [ | unfold Posix.utimes; proc_simpl; rewrite lookup_insert_eq;
           destruct (Posix.fails w Posix.SysUtimes dst) eqn:Hutimes; proc_simpl ] ]).

(** *** The checks of the arguments *)

Lemma well_formed_args_command_line (prog : string) (args : list string) :
  Spec.well_formed_args args ->
  exists posS hexS src dst, prog :: args = Spec.command_line prog posS hexS src dst.
Proof.
  intros (Hcount & H1 & H2 & H3 & H4).
  destruct args as [| f1 [| v1 [| f2 [| v2 [| f3 [| v3 [| f4 [| v4 [| ? ?]]]]]]]]];
    try discriminate Hcount.
  cbn in H1, H2, H3, H4. injection H1 as ->. injection H2 as ->.
  injection H3 as ->. injection H4 as ->.
  by exists v1, v2, v3, v4.
Qed.

Lemma run_bad_arguments (prog : string) (args : list string) (w : Posix.world) :
  ~ Spec.well_formed_args args ->
  run (prog :: args) w
  = (Val 1, ProcState w ""
              (if decide (length args = 8%nat)
               then "Invalid parameter order." +:+ nl
               else usage_line prog) [] []).
Proof.
  intros Hbad. unfold run, main, main_body. proc_simpl.
  destruct (Z.eqb_spec (argc (prog :: args)) 9) as [Hcount | Hcount];
    cbn [negb]; proc_simpl.
  - unfold argc in Hcount.
    destruct args as [| f1 [| v1 [| f2 [| v2 [| f3 [| v3 [| f4 [| v4 [| ? ?]]]]]]]]];
      try (cbn [length] in Hcount; lia).
    cbn [arg lookup list_lookup default from_option id].
    destruct (String.eqb_spec f1 "-pos") as [-> | H1]; cbn [negb orb]; proc_simpl;
      [| done].
    destruct (String.eqb_spec f2 "-w") as [-> | H2]; cbn [negb orb]; proc_simpl;
      [| done].
    destruct (String.eqb_spec f3 "-r") as [-> | H3]; cbn [negb orb]; proc_simpl;
      [| done].
    destruct (String.eqb_spec f4 "-o") as [-> | H4]; cbn [negb orb]; proc_simpl;
      [| done].
    destruct Hbad. by repeat split.
  - destruct (decide (length args = 8%nat)) as [Heq | _]; [| done].
    unfold argc in Hcount. cbn [length] in Hcount. lia.
Qed.

(** X9. The two checks of the arguments and their messages: with a
    count other than eight the run prints the usage line, which names
    the program as it was called; with eight arguments and a flag that
    is wrong or out of place it prints [Invalid parameter order.].  In
    both cases it returns 1, prints nothing on the standard output and
    makes no system call. *)
Theorem run_argument_errors (prog : string) (args : list string) (w : Posix.world) :
  ~ Spec.well_formed_args args ->
  (length args <> 8%nat ->
   run (prog :: args) w = (Val 1, ProcState w "" (usage_line prog) [] []))
  /\ (length args = 8%nat ->
      run (prog :: args) w
      = (Val 1, ProcState w "" ("Invalid parameter order." +:+ nl) [] [])).
Proof.
  intros Hbad. rewrite (run_bad_arguments _ _ _ Hbad).
  destruct (decide (length args = 8%nat)); split; done.
Qed.

Lemma run_argument_errors_witness :
  run ["hexedit"; "-pos"; "0"] demo_world
  = (Val 1, ProcState demo_world "" (usage_line "hexedit") [] [])
  /\ run ["hexedit"; "-pos"; "0"; "-r"; "in.bin"; "-w"; "FF"; "-o"; "out.bin"] demo_world
     = (Val 1, ProcState demo_world "" ("Invalid parameter order." +:+ nl) [] []).
Proof.
  split.
  - apply (run_argument_errors "hexedit" ["-pos"; "0"] demo_world); [| done].
    intros (Hcount & _). discriminate Hcount.
  - apply (run_argument_errors "hexedit"
             ["-pos"; "0"; "-r"; "in.bin"; "-w"; "FF"; "-o"; "out.bin"] demo_world);
      [| done].
    intros (_ & _ & Hw & _). discriminate Hw.
Defined.

(** *** Exit code and streams *)

Lemma run_streams_command_line (prog posS hexS src dst : string) (w : Posix.world) :
  exists code s',
    run (Spec.command_line prog posS hexS src dst) w = (Val code, s')
    /\ ((code = 0 /\ cerr s' = "" /\ cout s' = success_line src dst)
        \/ (code = 1 /\ cout s' = "" /\ cerr s' <> "")).
Proof.
  run_paths w hexS src dst.
  all: eexists _, _; split; [reflexivity |].
  all: first [ left; split; [reflexivity |]; split; reflexivity
             | right; split; [reflexivity |]; split; [reflexivity |];
               cbn [cerr String.append]; discriminate ].
Qed.

(** X10. Every run, whatever its arguments, returns 0 or 1 and never
    stores outside a buffer.  With 0 it has printed the line of
    success, which names the source and the destination, and nothing
    on the standard error; with 1 it has printed a message on the
    standard error and nothing on the standard output. *)
Theorem run_exit_code_and_streams (prog : string) (args : list string)
    (w : Posix.world) :
  exists code s',
    run (prog :: args) w = (Val code, s')
    /\ ((code = 0 /\ cerr s' = ""
         /\ exists posS hexS src dst,
              prog :: args = Spec.command_line prog posS hexS src dst
              /\ cout s' = success_line src dst)
        \/ (code = 1 /\ cout s' = "" /\ cerr s' <> "")).
Proof.
  destruct (decide (length args = 8%nat
                    /\ args !! 0%nat = Some "-pos" /\ args !! 2%nat = Some "-w"
                    /\ args !! 4%nat = Some "-r" /\ args !! 6%nat = Some "-o"))
    as [Hgood | Hbad].
  - destruct (well_formed_args_command_line prog args Hgood)
      as (posS & hexS & src & dst & Hargs).
    rewrite Hargs.
    destruct (run_streams_command_line prog posS hexS src dst w)
      as (code & s' & Hrun & Hcases).
    exists code, s'. split; [done |].
    destruct Hcases as [(-> & Herr & Hout) | Hfail]; [left | by right].
    split; [done |]. split; [done |]. by exists posS, hexS, src, dst.
  - eexists 1, _. split; [by apply run_bad_arguments |].
    right. split; [done |]. split; [done |]. cbn [cerr].
    destruct (decide (length args = 8%nat)); discriminate.
Qed.

(** *** The order of the checks *)

(** X11. The source is looked at before the characters of the payload:
    with no file at the source path and a payload of at most 1000
    characters, well formed or not, the run returns 1 with the message
    of [stat], after this one call, and changes nothing. *)
Theorem run_missing_source (prog posS hexS src dst : string) (w : Posix.world) :
  (String.length hexS <= 1000)%nat ->
  Posix.files w !! src = None ->
  run (Spec.command_line prog posS hexS src dst) w
  = (Val 1, ProcState w "" ("Error: stat() failed for " +:+ src +:+ nl)
              [Posix.EvStat src] []).
Proof.
  intros Hshort Hnone.
  run_paths w hexS src dst.
  all: first [ reflexivity | exfalso; first [lia | congruence] ].
Qed.

Lemma run_missing_source_witness :
  run (Spec.command_line "hexedit" "0" "xyz" "none.bin" "out.bin") demo_world
  = (Val 1, ProcState demo_world "" ("Error: stat() failed for " +:+ "none.bin" +:+ nl)
              [Posix.EvStat "none.bin"] []).
Proof.
  apply (run_missing_source "hexedit" "0" "xyz" "none.bin" "out.bin" demo_world).
  - simpl. lia.
  - by vm_compute.
Defined.

(** X12. A payload of at most 1000 characters that does not decode is
    found out after the source has been read and before the
    destination is opened: the run returns 1 with the message of the
    exception and nothing on the standard output, its calls are the
    three calls on the source, and, the exception passing by the wipe,
    no buffer has been wiped. *)
Theorem run_malformed_payload (prog posS hexS src dst : string) (w : Posix.world)
    (source : Posix.file) (err : exception) :
  (String.length hexS <= 1000)%nat ->
  parseHexString hexS = Throw err ->
  Posix.files w !! src = Some source ->
  Z.of_nat (length (Posix.f_data source)) <= Int64.max_signed ->
  Posix.fails w Posix.SysStat src = false ->
  Posix.fails w Posix.SysOpenRead src = false ->
  Posix.fails w Posix.SysRead src = false ->
  exists s',
    run (Spec.command_line prog posS hexS src dst) w = (Val 1, s')
    /\ cout s' = ""
    /\ cerr s' = "Error: " +:+ what err +:+ nl
    /\ trace s' = [Posix.EvStat src; Posix.EvOpenRead src;
                   Posix.EvRead src (Z.of_nat (length (Posix.f_data source)))]
    /\ wiped s' = [].
Proof.
  intros Hshort Hthrow Hsrc Hfits Hs Ho Hr.
  run_paths w hexS src dst.
  all: try (exfalso; lia).
  all: simplify_eq.
  all: try (exfalso; lia).
  eexists. split; [reflexivity |]. by repeat split.
Qed.

Lemma run_malformed_payload_witness :
  exists s',
    run (Spec.command_line "hexedit" "0" "12G4" "in.bin" "out.bin") demo_world
      = (Val 1, s')
    /\ cout s' = ""
    /\ cerr s' = "Error: " +:+ "Invalid hex character: G" +:+ nl
    /\ trace s' = [Posix.EvStat "in.bin"; Posix.EvOpenRead "in.bin";
                   Posix.EvRead "in.bin" 4]
    /\ wiped s' = [].
Proof.
  apply (run_malformed_payload "hexedit" "0" "12G4" "in.bin" "out.bin" demo_world
           demo_file (runtime_error "Invalid hex character: G")).
  - simpl. lia.
  - reflexivity.
  - by vm_compute.
  - by vm_compute.
  - reflexivity.
  - reflexivity.
  - reflexivity.
Defined.

(** X13. When everything goes through but [utimes], the run returns 1
    with the message of [utimes], and yet the destination is there in
    full: it holds the patched bytes, under the time of the write and
    not under the time of the source. *)
Theorem run_utimes_fails (prog posS hexS src dst : string) (w : Posix.world)
    (source : Posix.file) (payload : list Z) :
  (String.length hexS <= 1000)%nat ->
  parseHexString hexS = Return payload ->
  Posix.files w !! src = Some source ->
  Z.of_nat (length (Posix.f_data source)) <= Int64.max_signed ->
  Posix.fails w Posix.SysStat src = false ->
  Posix.fails w Posix.SysOpenRead src = false ->
  Posix.fails w Posix.SysRead src = false ->
  Posix.fails w Posix.SysOpenWrite dst = false ->
  Posix.fails w Posix.SysWrite dst = false ->
  Posix.fails w Posix.SysUtimes dst = true ->
  exists s' g,
    run (Spec.command_line prog posS hexS src dst) w = (Val 1, s')
    /\ cerr s' = "Error: utimes failed for " +:+ dst +:+ nl
    /\ Posix.files (os s') !! dst = Some g
    /\ Posix.f_data g = Spec.patched (Posix.strtol posS) payload (Posix.f_data source)
    /\ Posix.f_mtime g = Posix.now w.
Proof.
  intros Hshort Hdecodes Hsrc Hfits Hs Ho Hr Hc Hw Hu.
  run_paths w hexS src dst.
  all: try (exfalso; lia).
  all: simplify_eq.
  all: try (exfalso; lia).
  all: eexists _, _; split; [reflexivity |].
  all: split; [reflexivity |].
  all: split; [cbn [os Posix.files]; apply lookup_insert_eq |].
  all: by split.
Qed.

Lemma run_utimes_fails_witness :
  let w := Posix.World (Posix.files demo_world) (Posix.now demo_world)
             (fun call _ => match call with Posix.SysUtimes => true | _ => false end) in
  exists s' g,
    run (Spec.command_line "hexedit" "3" "AABB" "in.bin" "out.bin") w = (Val 1, s')
    /\ cerr s' = "Error: utimes failed for " +:+ "out.bin" +:+ nl
    /\ Posix.files (os s') !! "out.bin" = Some g
    /\ Posix.f_data g = Spec.patched (Posix.strtol "3") [170; 187] (Posix.f_data demo_file)
    /\ Posix.f_mtime g = Posix.now demo_world.
Proof.
  intros w.
  apply (run_utimes_fails "hexedit" "3" "AABB" "in.bin" "out.bin" w demo_file [170; 187]);
    try reflexivity.
  - simpl. lia.
  - by vm_compute.
Defined.

(** *** The wipe *)

Lemma zeroed_whole (mem : list Z) :
  Spec.zeroed 0 (length mem) mem = replicate (length mem) 0.
Proof.
  unfold Spec.zeroed. cbn [take app Nat.add].
  by rewrite drop_all, app_nil_r.
Qed.

(** X14. A run that returns 0 has wiped the bytes of the hex string in
    full and, when the payload is not empty, the decoded bytes in full:
    [secureZero] left each of the two buffers as zeros over its whole
    length, and was called on nothing else. *)
Theorem run_wipes_buffers (prog posS hexS src dst : string) (w : Posix.world)
    (s' : proc_state) :
  run (Spec.command_line prog posS hexS src dst) w = (Val 0, s') ->
  exists payload,
    parseHexString hexS = Return payload
    /\ wiped s' =
         replicate (String.length hexS) 0
         :: match payload with
            | [] => []
            | _ :: _ => [replicate (length payload) 0]
            end.
Proof.
  revert s'.
  run_paths w hexS src dst.
  all: intros s' [= <-].
  all: exists binData; split; [done |].
  all: cbn [wiped app]; rewrite Hdata.
  all: rewrite <- (bytes_of_string_length hexS), !zeroed_whole.
  all: reflexivity.
Qed.

Lemma run_wipes_buffers_witness :
  exists payload,
    parseHexString "AABB" = Return payload
    /\ wiped (run (Spec.command_line "hexedit" "3" "AABB" "in.bin" "out.bin")
                  demo_world).2
       = replicate (String.length "AABB") 0
         :: match payload with
            | [] => []
            | _ :: _ => [replicate (length payload) 0]
            end.
Proof.
  apply (run_wipes_buffers "hexedit" "3" "AABB" "in.bin" "out.bin" demo_world).
  by vm_compute.
Defined.

(** *** Patching again *)

Lemma overwrite_idempotent (offset : nat) (payload buffer : list Z) :
  (offset <= length buffer)%nat ->
  Spec.overwrite offset payload (Spec.overwrite offset payload buffer)
  = Spec.overwrite offset payload buffer.
Proof.
  intros Hoff. apply list_eq. intros j.
  pose proof (overwrite_length offset payload buffer Hoff) as Hlen.
  destruct (decide (j < offset \/ offset + length payload <= j)%nat) as [Hout | Hin].
  - rewrite overwrite_lookup_outside by lia. done.
  - destruct (decide (j < length buffer)%nat) as [Hj | Hj].
    + replace j with (offset + (j - offset))%nat by lia.
      rewrite !overwrite_lookup_payload by lia. done.
    + rewrite !lookup_ge_None_2; [done | lia |].
      rewrite overwrite_length; lia.
Qed.

Lemma patched_idempotent (pos : Z) (payload data : list Z) :
  Spec.patched pos payload (Spec.patched pos payload data)
  = Spec.patched pos payload data.
Proof.
  unfold Spec.patched at 1. rewrite patched_length. unfold Spec.patched.
  destruct (Z.leb_spec 0 pos); cbn [andb]; [| done].
  destruct (Z.ltb_spec pos (Z.of_nat (length data))); [| done].
  apply overwrite_idempotent. lia.
Qed.

(** X15. Patching is idempotent: when a run goes through, and a second
    run with the same offset and payload on its destination goes
    through too, the second run writes the very same bytes. *)
Theorem run_twice_same_bytes (prog posS hexS src dst out : string)
    (w : Posix.world) (f1 f2 : Posix.file) (payload1 payload2 : list Z) :
  let first := run (Spec.command_line prog posS hexS src dst) w in
  let second := run (Spec.command_line prog posS hexS dst out) (os first.2) in
  run_goes_through w hexS src dst f1 payload1 ->
  run_goes_through (os first.2) hexS dst out f2 payload2 ->
  first.1 = Val 0
  /\ second.1 = Val 0
  /\ Posix.f_data <$> Posix.files (os second.2) !! out
     = Posix.f_data <$> Posix.files (os first.2) !! dst.
Proof.
  intros first second Hgo1 Hgo2. subst first second.
  destruct (run_succeeds prog posS hexS src dst w f1 payload1 Hgo1)
    as (s1 & Hrun1 & Hdst1 & _).
  rewrite Hrun1 in Hgo2 |- *. cbn [fst snd] in Hgo2 |- *.
  destruct (run_succeeds prog posS hexS dst out (os s1) f2 payload2 Hgo2)
    as (s2 & Hrun2 & Hdst2 & _).
  rewrite Hrun2. cbn [fst snd].
  destruct Hgo1 as (_ & _ & Hparse1), Hgo2 as (_ & (Hsrc2 & _) & Hparse2).
  rewrite Hdst1 in Hsrc2. injection Hsrc2 as <-.
  rewrite Hparse1 in Hparse2. injection Hparse2 as <-.
  split; [done |]. split; [done |].
  rewrite Hdst1, Hdst2. cbn [fmap option_fmap option_map Posix.f_data].
  by rewrite patched_idempotent.
Qed.

Lemma run_twice_same_bytes_witness :
  let first := run (Spec.command_line "hexedit" "3" "AABB" "in.bin" "out.bin") demo_world in
  let second := run (Spec.command_line "hexedit" "3" "AABB" "out.bin" "again.bin")
                    (os first.2) in
  first.1 = Val 0
  /\ second.1 = Val 0
  /\ Posix.f_data <$> Posix.files (os second.2) !! "again.bin"
     = Posix.f_data <$> Posix.files (os first.2) !! "out.bin".
Proof.
  apply (run_twice_same_bytes "hexedit" "3" "AABB" "in.bin" "out.bin" "again.bin"
           demo_world demo_file
           (Posix.File [1; 2; 3; 170]
                       (Posix.Timespec.make 1700000000 123456000)
                       (Posix.Timespec.make 1600000000 987654000))
           [170; 187] [170; 187]).
  - apply demo_goes_through; [simpl; lia | reflexivity].
  - split; [simpl; lia |]. split; [| reflexivity].
    unfold Spec.io_ok. split; [by vm_compute |]. split; [by vm_compute |].
    by repeat split.
Defined.

(** *** What decides the exit code *)

(** X16. The limit on the payload is inclusive: a payload of exactly
    1000 hex digits is accepted, and with the calls on the files going
    through the run returns 0 and writes the patch of its 500 bytes. *)
Theorem run_accepts_1000_digits (prog posS hexS src dst : string) (w : Posix.world)
    (source : Posix.file) :
  String.length hexS = 1000%nat ->
  Spec.all_hex hexS = true ->
  Spec.io_ok w src dst source ->
  exists s' g payload,
    run (Spec.command_line prog posS hexS src dst) w = (Val 0, s')
    /\ parseHexString hexS = Return payload
    /\ length payload = 500%nat
    /\ Posix.files (os s') !! dst = Some g
    /\ Posix.f_data g = Spec.patched (Posix.strtol posS) payload (Posix.f_data source).
Proof.
  intros Hlength Hhex Hio.
  assert (parseHexString hexS = Return (Spec.hex_pairs hexS)) as Hdecodes.
  { apply parseHexString_Return_iff. by rewrite Hlength. }
  destruct (run_succeeds prog posS hexS src dst w source (Spec.hex_pairs hexS))
    as (s' & Hrun & Hdst & _).
  { split; [lia | by split]. }
  eexists s', _, _. split; [done |]. split; [done |].
  split; [by rewrite hex_pairs_length, Hlength |]. by split.
Qed.

Lemma run_accepts_1000_digits_witness :
  let hexS := String.concat "" (replicate 500 "00"%string) in
  exists s' g payload,
    run (Spec.command_line "hexedit" "1" hexS "in.bin" "out.bin") demo_world = (Val 0, s')
    /\ parseHexString hexS = Return payload
    /\ length payload = 500%nat
    /\ Posix.files (os s') !! "out.bin" = Some g
    /\ Posix.f_data g = Spec.patched (Posix.strtol "1") payload (Posix.f_data demo_file).
Proof.
  intros hexS.
  apply (run_accepts_1000_digits "hexedit" "1" hexS "in.bin" "out.bin" demo_world demo_file).
  - by vm_compute.
  - by vm_compute.
  - unfold Spec.io_ok. split; [by vm_compute |]. split; [by vm_compute |].
    by repeat split.
Defined.

(** X17. The offset never decides the exit code: two runs that differ
    in the [-pos] value only return the same code, and when the payload
    has at most 1000 characters and decodes and every call on the two
    files goes through this code is 0, whatever [-pos] says. *)
Theorem run_exit_code_ignores_offset (prog posS posS' hexS src dst : string)
    (w : Posix.world) :
  (run (Spec.command_line prog posS hexS src dst) w).1
  = (run (Spec.command_line prog posS' hexS src dst) w).1
  /\ ((exists f binData, run_goes_through w hexS src dst f binData) ->
      (run (Spec.command_line prog posS hexS src dst) w).1 = Val 0).
Proof.
  assert (forall p,
             ((run (Spec.command_line prog p hexS src dst) w).1 = Val 0 /\
              exists f binData, run_goes_through w hexS src dst f binData)
             \/ ((run (Spec.command_line prog p hexS src dst) w).1 = Val 1 /\
                 ~ exists f binData, run_goes_through w hexS src dst f binData))
    as Hcases.
  { intros p.
    destruct (run_char prog p hexS src dst w) as (code & s' & -> & Hcases).
    destruct Hcases as [(-> & f & binData & Hgo & _) | (-> & Hno)]; [left | right].
    - split; [done |]. by exists f, binData.
    - by split. }
  split.
  - destruct (Hcases posS) as [[-> Hgo] | [-> Hno]],
             (Hcases posS') as [[-> Hgo'] | [-> Hno']]; done.
  - intros Hgo. destruct (Hcases posS) as [[-> _] | [_ Hno]]; done.
Qed.

Lemma run_exit_code_ignores_offset_witness :
  (run (Spec.command_line "hexedit" "-7" "AABB" "in.bin" "out.bin") demo_world).1
  = (run (Spec.command_line "hexedit" "99" "AABB" "in.bin" "out.bin") demo_world).1
  /\ (run (Spec.command_line "hexedit" "-7" "AABB" "in.bin" "out.bin") demo_world).1
     = Val 0.
Proof.
  destruct (run_exit_code_ignores_offset "hexedit" "-7" "99" "AABB" "in.bin" "out.bin"
              demo_world) as [Hsame Hzero].
  split; [exact Hsame |]. apply Hzero.
  exists demo_file, [170; 187].
  apply demo_goes_through; [simpl; lia | reflexivity].
Defined.

(** *** The order of the calls *)

(** X18. The calls of a run come in one order and with the paths of
    the command line: the source path is given to [stat] and to the
    stream that reads, the destination path to the stream that writes
    and to [utimes], and to nothing else.  With a file at the source
    path the trace of every run is a prefix of [stat], open, read of
    the whole source, then open, write of the patched bytes and
    [utimes] with the times of the source; with no file there the run
    calls [stat] at most. *)
Theorem run_trace_prefix (prog posS hexS src dst : string) (w : Posix.world) :
  match Posix.files w !! src with
  | Some source =>
      trace (run (Spec.command_line prog posS hexS src dst) w).2
      `prefix_of`
      success_trace src dst source
        (Spec.patched (Posix.strtol posS) (Spec.hex_pairs hexS) (Posix.f_data source))
  | None =>
      trace (run (Spec.command_line prog posS hexS src dst) w).2
      `prefix_of` [Posix.EvStat src]
  end.
Proof.
  run_paths w hexS src dst.
  all: try match goal with
           | H : parseHexString _ = Return _ |- _ =>
               apply parseHexString_Return in H; rewrite H in *
           end.
  all: try case_match.
  all: cbn [snd trace app]; unfold success_trace.
  all: eexists; cbn [app]; reflexivity.
Qed.
